(** * river.tree._base_tree : the [DecisionTree] base class

    A shallow embedding of [src/river/tree/_base_tree.py].

    - Python [int] counters are [Z]; the byte-size estimates, which Python
      keeps as floats produced by true division, are exact rationals [Q].
    - The Hoeffding bound is computed on IEEE 754 binary64 numbers, the
      primitive floats, with the exceptions that [/], [math.log], the
      conversion of an [int] and [math.sqrt] raise made explicit.
    - The tree is a mutable object graph in Python.  Children are owned
      exclusively by their parent, so a reference to a split node is
      represented by the path of branch indices leading to it from the root,
      and [parent.set_child(branch, leaf)] by a functional update along
      that path.
    - The classes of [river/tree/_nodes.py] ([Node], [LearningNode],
      [ActiveLeaf], [InactiveLeaf], [SplitNode], [FoundNode]) are not part
      of the embedded file; they are modelled from the specification. *)

From Stdlib Require Import List ZArith QArith Bool Lia Permutation.
From Stdlib Require Import Floats.
Import ListNotations.

Set Implicit Arguments.
Set Warnings "-register-all,-notation-for-abbreviation".

(** ** Exceptions *)

Inductive PyError : Set :=
| ZeroDivisionError
| ValueError
| OverflowError.

Inductive result (A : Type) : Type :=
| Ok (a : A)
| Raise (e : PyError).

Arguments Ok {A} a.
Arguments Raise {A} e.

Definition bind {A B : Type} (r : result A) (k : A -> result B) : result B :=
  match r with
  | Ok a => k a
  | Raise e => Raise e
  end.

Notation "x <- r ;; k" := (bind r (fun x => k))
  (at level 61, r at next level, right associativity).

Definition completes {A : Type} (r : result A) : Prop :=
  exists a, r = Ok a.


(** ** The Hoeffding bound

    Python floats are IEEE 754 binary64 numbers, here the primitive
    floats.  The logarithm of the C library, which [math.log] calls, is a
    parameter. *)

Section HoeffdingBound.

Variable libm_log : float -> float.

(** The conversion of the [int] [n] in [2. * n]: to the nearest float,
    ties to even; [OverflowError] when that is not finite. *)
Definition float_of_int (n : Z) : result float :=
  let f := SF2Prim (binary_normalize prec emax n 0 false) in
  if is_infinity f then Raise OverflowError else Ok f.

(** Python's float division [x / y]. *)
Definition py_div (x y : float) : result float :=
  if (y =? 0)%float then Raise ZeroDivisionError else Ok (x / y)%float.

(** [math.log(x)]: a NaN and [inf] are returned as they are; any other
    argument that is not positive, and a result of the C library that is
    not finite, raise [ValueError]. *)
Definition py_log (x : float) : result float :=
  if is_nan x then Ok x
  else if is_infinity x then
    if (0 <? x)%float then Ok x else Raise ValueError
  else if (0 <? x)%float then
    let r := libm_log x in
    if is_nan r || is_infinity r then Raise ValueError else Ok r
  else Raise ValueError.

(** [math.sqrt(x)]: [ValueError] when the root is a NaN and [x] is not. *)
Definition py_sqrt (x : float) : result float :=
  let r := sqrt x in
  if is_nan r && negb (is_nan x) then Raise ValueError else Ok r.

(** [DecisionTree._hoeffding_bound]:
    [math.sqrt((range_val * range_val * math.log(1. / confidence)) / (2. * n))],
    the operands evaluated from left to right. *)
Definition hoeffding_bound (range_val confidence : float) (n : Z)
  : result float :=
  let square := (range_val * range_val)%float in
  inv <- py_div 1 confidence ;;
  lg <- py_log inv ;;
  let numerator := (square * lg)%float in
  n_float <- float_of_int n ;;
  q <- py_div numerator (2 * n_float)%float ;;
  py_sqrt q.

End HoeffdingBound.

(** ** Nodes *)

(** Modelled from the spec: the capability tags [ActiveLeaf] and
    [InactiveLeaf] of [river/tree/_nodes.py], which is not among the
    sources. *)
Inductive LeafMode : Set :=
| ActiveLeaf
| InactiveLeaf.

Definition LeafMode_eqb (a b : LeafMode) : bool :=
  match a, b with
  | ActiveLeaf, ActiveLeaf => true
  | InactiveLeaf, InactiveLeaf => true
  | _, _ => false
  end.

Section Nodes.

Variable Stats : Type.
Variable SplitTest : Type.

(** Modelled from the spec: the class [LearningNode] of
    [river/tree/_nodes.py]; a learning node carries its statistics, its
    depth and its capability tag. *)
Record LearningNode : Type := mkLearningNode {
  stats : Stats;
  depth : Z;
  mode : LeafMode
}.

(** Modelled from the spec: the classes [Node] and [SplitNode] of
    [river/tree/_nodes.py]; a split node carries its test, the statistics
    inherited from the leaf it replaced, its depth and the ordered sequence
    of its children. *)
Inductive Node : Type :=
| Leaf (l : LearningNode)
| Split (split_test : SplitTest) (target_stats : Stats) (split_depth : Z)
        (children : list Node).

(** A reference to a split node: the branch indices from the root to it. *)
Definition NodeRef : Set := list nat.

(** Modelled from the spec: the class [FoundNode] of
    [river/tree/_nodes.py], the triple [(node, parent, parent_branch)];
    [parent] is [None] and [parent_branch] is [-1] for the root. *)
Record FoundNode : Type := mkFoundNode {
  node : LearningNode;
  parent : option NodeRef;
  parent_branch : Z
}.

(** The values on which the engine calls [isinstance]. *)
Inductive PyObject : Type :=
| ObjNode (n : Node)
| ObjFoundNode (f : FoundNode).

Definition isinstance_ActiveLeaf (o : PyObject) : bool :=
  match o with
  | ObjNode (Leaf l) => LeafMode_eqb (mode l) ActiveLeaf
  | _ => false
  end.

Definition isinstance_InactiveLeaf (o : PyObject) : bool :=
  match o with
  | ObjNode (Leaf l) => LeafMode_eqb (mode l) InactiveLeaf
  | _ => false
  end.

(** Modelled from the spec: [LearningNode.is_leaf()]. *)
Definition is_leaf (l : LearningNode) : bool := true.

(** [new_leaf.depth -= 1] *)
Definition decrement_depth (l : LearningNode) : LearningNode :=
  mkLearningNode (stats l) (depth l - 1) (mode l).

(** Modelled from the spec: [SplitNode.set_child(index, node)], which
    splices [node] into the child slot [index] of the sequence of
    children. *)
Fixpoint set_nth (cs : list Node) (index : nat) (new : Node) : list Node :=
  match cs, index with
  | [], _ => []
  | _ :: cs', O => new :: cs'
  | c :: cs', S i => c :: set_nth cs' i new
  end.

(** Apply [g] to the child at [index], when there is one. *)
Fixpoint alter_nth (g : Node -> Node) (cs : list Node) (index : nat)
  : list Node :=
  match cs, index with
  | [], _ => []
  | c :: cs', O => g c :: cs'
  | c :: cs', S i => c :: alter_nth g cs' i
  end.

(** [parent.set_child(parent_branch, new)] where [parent] is the split
    node reached from [root] along [ref]. *)
Fixpoint set_child_at (root : Node) (ref : NodeRef) (parent_branch : nat)
         (new : Node) {struct ref} : Node :=
  match root with
  | Leaf l => Leaf l
  | Split test st d cs =>
      match ref with
      | [] => Split test st d (set_nth cs parent_branch new)
      | i :: ref' =>
          Split test st d
            (alter_nth (fun c => set_child_at c ref' parent_branch new) cs i)
      end
  end.

(** The reference to a node, from what its [FoundNode] records. *)
Definition slot_ref (parent : option NodeRef) (parent_branch : Z) : NodeRef :=
  match parent with
  | None => []
  | Some ref => ref ++ [Z.to_nat parent_branch]
  end.

Definition slot (f : FoundNode) : NodeRef :=
  slot_ref (parent f) (parent_branch f).

(** [DecisionTree.__find_learning_nodes(node, parent, parent_branch, found)]
    for a [node] that is not [None]; the result is what is appended to
    [found]. *)
Fixpoint find_learning_nodes_from (n : Node) (parent : option NodeRef)
         (parent_branch : Z) : list FoundNode :=
  match n with
  | Leaf l => [mkFoundNode l parent parent_branch]
  | Split _ _ _ cs =>
      let split_node := slot_ref parent parent_branch in
      (fix children_from (cs : list Node) (i : nat) : list FoundNode :=
         match cs with
         | [] => []
         | c :: cs' =>
             find_learning_nodes_from c (Some split_node) (Z.of_nat i)
               ++ children_from cs' (S i)
         end) cs O
  end.

(** *** Auxiliary notions: leaves by position

    The learning nodes of a subtree with the branch indices leading to each
    of them, and the replacement of the subtree at a position.  They are
    used to reason about [find_learning_nodes_from] and [set_child_at]. *)

Definition NodeRef_eqb (p q : NodeRef) : bool :=
  if list_eq_dec Nat.eq_dec p q then true else false.

Definition push_branch (i : nat) (lp : LearningNode * NodeRef)
  : LearningNode * NodeRef :=
  (fst lp, i :: snd lp).

Fixpoint number_children (i : nat)
         (slots_of_children : list (list (LearningNode * NodeRef)))
  : list (LearningNode * NodeRef) :=
  match slots_of_children with
  | [] => []
  | slots :: rest =>
      map (push_branch i) slots ++ number_children (S i) rest
  end.

Fixpoint leaf_slots (n : Node) : list (LearningNode * NodeRef) :=
  match n with
  | Leaf l => [(l, [])]
  | Split _ _ _ cs => number_children O (map leaf_slots cs)
  end.

(** The leaf at position [p] becomes [l]. *)
Definition relabel (p : NodeRef) (l : LearningNode)
           (lp : LearningNode * NodeRef) : LearningNode * NodeRef :=
  if NodeRef_eqb (snd lp) p then (l, snd lp) else lp.

Fixpoint replace_at (n : Node) (p : NodeRef) (new : Node) {struct p} : Node :=
  match p with
  | [] => new
  | i :: p' =>
      match n with
      | Leaf l => Leaf l
      | Split test st d cs =>
          Split test st d (alter_nth (fun c => replace_at c p' new) cs i)
      end
  end.

(** The [FoundNode] recorded for the leaf at relative position [snd lp] of
    a subtree whose own parent and branch are [parent] and
    [parent_branch]. *)
Definition found_at (parent : option NodeRef) (parent_branch : Z)
           (lp : LearningNode * NodeRef) : FoundNode :=
  match snd lp with
  | [] => mkFoundNode (fst lp) parent parent_branch
  | _ :: _ =>
      mkFoundNode (fst lp)
        (Some (slot_ref parent parent_branch ++ removelast (snd lp)))
        (Z.of_nat (last (snd lp) O))
  end.

(** The found node [g] once the leaf at position [p] has been replaced by
    [l]. *)
Definition refresh (p : NodeRef) (l : LearningNode) (g : FoundNode)
  : FoundNode :=
  if NodeRef_eqb (slot g) p
  then mkFoundNode l (parent g) (parent_branch g)
  else g.

End Nodes.

Arguments Leaf {Stats SplitTest} l.
Arguments ObjFoundNode {Stats SplitTest} f.
Arguments mkFoundNode {Stats} node parent parent_branch.
Arguments leaf_slots {Stats SplitTest} n.
Arguments slot {Stats} f.
Arguments node {Stats} f.
Arguments parent {Stats} f.
Arguments parent_branch {Stats} f.
Arguments stats {Stats} l.
Arguments depth {Stats} l.
Arguments mode {Stats} l.

(** ** The state of a [DecisionTree] *)

Section Engine.

Variable Stats : Type.
Variable SplitTest : Type.

Notation Leaf_t := (LearningNode Stats).
Notation Node_t := (Node Stats SplitTest).
Notation Found_t := (FoundNode Stats).

(** The attributes set by [__init__]; [max_depth = None] stands for
    [math.inf]. *)
Record DecisionTree : Type := mkDecisionTree {
  max_depth : option Z;
  binary_split : bool;
  max_size : Z;
  max_byte_size : Z;
  memory_estimate_period : Z;
  stop_mem_management : bool;
  remove_poor_atts : bool;
  merit_preprune : bool;
  tree_root : option Node_t;
  n_decision_nodes : Z;
  n_active_leaves : Z;
  n_inactive_leaves : Z;
  inactive_leaf_size_estimate : Q;
  active_leaf_size_estimate : Q;
  size_estimate_overhead_fraction : Q;
  growth_allowed : bool;
  train_weight_seen_by_model : Q
}.

(** [DecisionTree.__init__] *)
Definition init (max_depth : option Z) (binary_split : bool) (max_size : Z)
           (memory_estimate_period : Z)
           (stop_mem_management remove_poor_atts merit_preprune : bool)
  : DecisionTree :=
  mkDecisionTree max_depth binary_split max_size (max_size * 2 ^ 20)
    memory_estimate_period stop_mem_management remove_poor_atts merit_preprune
    None 0 0 0 0 0 1 true 0.

Definition set_tree_root (r : option Node_t) (t : DecisionTree) : DecisionTree :=
  mkDecisionTree (max_depth t) (binary_split t) (max_size t) (max_byte_size t)
    (memory_estimate_period t) (stop_mem_management t) (remove_poor_atts t)
    (merit_preprune t) r (n_decision_nodes t) (n_active_leaves t)
    (n_inactive_leaves t) (inactive_leaf_size_estimate t)
    (active_leaf_size_estimate t) (size_estimate_overhead_fraction t)
    (growth_allowed t) (train_weight_seen_by_model t).

Definition set_leaf_counts (n_active n_inactive : Z) (t : DecisionTree)
  : DecisionTree :=
  mkDecisionTree (max_depth t) (binary_split t) (max_size t) (max_byte_size t)
    (memory_estimate_period t) (stop_mem_management t) (remove_poor_atts t)
    (merit_preprune t) (tree_root t) (n_decision_nodes t) n_active
    n_inactive (inactive_leaf_size_estimate t)
    (active_leaf_size_estimate t) (size_estimate_overhead_fraction t)
    (growth_allowed t) (train_weight_seen_by_model t).

Definition set_growth_allowed (b : bool) (t : DecisionTree) : DecisionTree :=
  mkDecisionTree (max_depth t) (binary_split t) (max_size t) (max_byte_size t)
    (memory_estimate_period t) (stop_mem_management t) (remove_poor_atts t)
    (merit_preprune t) (tree_root t) (n_decision_nodes t) (n_active_leaves t)
    (n_inactive_leaves t) (inactive_leaf_size_estimate t)
    (active_leaf_size_estimate t) (size_estimate_overhead_fraction t)
    b (train_weight_seen_by_model t).

Definition set_active_leaf_size_estimate (q : Q) (t : DecisionTree)
  : DecisionTree :=
  mkDecisionTree (max_depth t) (binary_split t) (max_size t) (max_byte_size t)
    (memory_estimate_period t) (stop_mem_management t) (remove_poor_atts t)
    (merit_preprune t) (tree_root t) (n_decision_nodes t) (n_active_leaves t)
    (n_inactive_leaves t) (inactive_leaf_size_estimate t)
    q (size_estimate_overhead_fraction t)
    (growth_allowed t) (train_weight_seen_by_model t).

Definition set_inactive_leaf_size_estimate (q : Q) (t : DecisionTree)
  : DecisionTree :=
  mkDecisionTree (max_depth t) (binary_split t) (max_size t) (max_byte_size t)
    (memory_estimate_period t) (stop_mem_management t) (remove_poor_atts t)
    (merit_preprune t) (tree_root t) (n_decision_nodes t) (n_active_leaves t)
    (n_inactive_leaves t) q
    (active_leaf_size_estimate t) (size_estimate_overhead_fraction t)
    (growth_allowed t) (train_weight_seen_by_model t).

Definition set_size_estimate_overhead_fraction (q : Q) (t : DecisionTree)
  : DecisionTree :=
  mkDecisionTree (max_depth t) (binary_split t) (max_size t) (max_byte_size t)
    (memory_estimate_period t) (stop_mem_management t) (remove_poor_atts t)
    (merit_preprune t) (tree_root t) (n_decision_nodes t) (n_active_leaves t)
    (n_inactive_leaves t) (inactive_leaf_size_estimate t)
    (active_leaf_size_estimate t) q
    (growth_allowed t) (train_weight_seen_by_model t).

(** ** Collaborators

    [_new_learning_node] is abstract in [DecisionTree]; the promise of a
    leaf and [calculate_object_size] are defined outside the file. *)
Class Collaborators : Type := {
  new_learning_node : Stats -> option Leaf_t -> bool -> Leaf_t;
  calculate_promise : Leaf_t -> Z;
  calculate_object_size : Leaf_t -> Z;
  calculate_tree_size : DecisionTree -> Z
}.

Context {collab : Collaborators}.

(** [_find_learning_nodes] *)
Definition find_learning_nodes (t : DecisionTree) : list Found_t :=
  match tree_root t with
  | None => []
  | Some root => find_learning_nodes_from root None (-1)
  end.

(** The assignment [self._tree_root = new_leaf] or the call
    [parent.set_child(parent_branch, new_leaf)]. *)
Definition attach (new_leaf : Leaf_t) (parent : option NodeRef)
           (parent_branch : Z) (t : DecisionTree) : DecisionTree :=
  match parent with
  | None => set_tree_root (Some (Leaf new_leaf)) t
  | Some ref =>
      match tree_root t with
      | None => t
      | Some root =>
          set_tree_root
            (Some (set_child_at root ref (Z.to_nat parent_branch)
                     (Leaf new_leaf))) t
      end
  end.

(** [_deactivate_leaf] *)
Definition deactivate_leaf (to_deactivate : Leaf_t) (parent : option NodeRef)
           (parent_branch : Z) (t : DecisionTree) : DecisionTree :=
  let new_leaf :=
    new_learning_node (stats to_deactivate) (Some to_deactivate) false in
  let new_leaf := decrement_depth new_leaf in
  let t := attach new_leaf parent parent_branch t in
  set_leaf_counts (n_active_leaves t - 1) (n_inactive_leaves t + 1) t.

(** [_activate_leaf] *)
Definition activate_leaf (to_activate : Leaf_t) (parent : option NodeRef)
           (parent_branch : Z) (t : DecisionTree) : DecisionTree :=
  let new_leaf :=
    new_learning_node (stats to_activate) (Some to_activate) true in
  let new_leaf := decrement_depth new_leaf in
  let t := attach new_leaf parent parent_branch t in
  set_leaf_counts (n_active_leaves t + 1) (n_inactive_leaves t - 1) t.

(** [_deactivate_all_leaves]: the test is made on the found node itself. *)
Definition deactivate_all_leaves (t : DecisionTree) : DecisionTree :=
  let learning_nodes := find_learning_nodes t in
  fold_left
    (fun t cur_node =>
       if isinstance_ActiveLeaf (@ObjFoundNode Stats SplitTest cur_node)
       then deactivate_leaf (node cur_node) (parent cur_node)
              (parent_branch cur_node) t
       else t)
    learning_nodes t.

(** Python's [x > y] on the size estimates. *)
Definition Qgtb (x y : Q) : bool := negb (Qle_bool x y).

(** [list.sort(key=lambda n: n.node.calculate_promise())]: a stable sort,
    ascending in the promise. *)
Fixpoint insert_by_promise (f : Found_t) (sorted : list Found_t)
  : list Found_t :=
  match sorted with
  | [] => [f]
  | g :: rest =>
      if (calculate_promise (node f) <=? calculate_promise (node g))%Z
      then f :: g :: rest
      else g :: insert_by_promise f rest
  end.

Definition sort_by_promise (l : list Found_t) : list Found_t :=
  fold_right insert_by_promise [] l.

(** The first statement of [_enforce_size_limit]. *)
Definition tree_size (t : DecisionTree) : Q :=
  (active_leaf_size_estimate t
   + inject_Z (n_inactive_leaves t) * inactive_leaf_size_estimate t)
  * size_estimate_overhead_fraction t.

(** The size tried by the scan for [max_active] active leaves out of
    [len]. *)
Definition projected_size (t : DecisionTree) (len max_active : nat) : Q :=
  (inject_Z (Z.of_nat max_active) * active_leaf_size_estimate t
   + inject_Z (Z.of_nat len - Z.of_nat max_active)
     * inactive_leaf_size_estimate t)
  * size_estimate_overhead_fraction t.

(** The [while max_active < len(learning_nodes)] loop; every iteration
    increments [max_active], so [len] iterations are enough. *)
Fixpoint max_active_loop (t : DecisionTree) (len fuel max_active : nat) : nat :=
  match fuel with
  | O => max_active
  | S fuel' =>
      if (max_active <? len)%nat then
        let max_active := S max_active in
        if Qgtb (projected_size t len max_active) (inject_Z (max_byte_size t))
        then (max_active - 1)%nat
        else max_active_loop t len fuel' max_active
      else max_active
  end.

Definition max_active_scan (t : DecisionTree) (len : nat) : nat :=
  max_active_loop t len len 0.

(** Body of the first [for] loop of [_enforce_size_limit]. *)
Definition deactivate_if_active (t : DecisionTree) (f : Found_t)
  : DecisionTree :=
  if isinstance_ActiveLeaf (ObjNode (@Leaf Stats SplitTest (node f)))
  then deactivate_leaf (node f) (parent f) (parent_branch f) t
  else t.

(** [depth < self.max_depth] *)
Definition below_max_depth (t : DecisionTree) (d : Z) : bool :=
  match max_depth t with
  | None => true
  | Some m => (d <? m)%Z
  end.

(** Body of the second [for] loop of [_enforce_size_limit]. *)
Definition activate_if_inactive (t : DecisionTree) (f : Found_t)
  : DecisionTree :=
  if isinstance_InactiveLeaf (ObjNode (@Leaf Stats SplitTest (node f)))
     && below_max_depth t (depth (node f))
  then activate_leaf (node f) (parent f) (parent_branch f) t
  else t.

(** [_enforce_size_limit] from [learning_nodes = ...] on. *)
Definition enforce_activation (t : DecisionTree) : DecisionTree :=
  let learning_nodes := sort_by_promise (find_learning_nodes t) in
  let max_active := max_active_scan t (length learning_nodes) in
  let cutoff := (length learning_nodes - max_active)%nat in
  let t := fold_left deactivate_if_active (firstn cutoff learning_nodes) t in
  fold_left activate_if_inactive (skipn cutoff learning_nodes) t.

(** [_enforce_size_limit] *)
Definition enforce_size_limit (t : DecisionTree) : DecisionTree :=
  if (0 <? n_inactive_leaves t)%Z
     || Qgtb (tree_size t) (inject_Z (max_byte_size t))
  then
    if stop_mem_management t
    then set_growth_allowed false t
    else enforce_activation t
  else enforce_activation t.

(** Python's true division of the estimates. *)
Definition py_qdiv (x y : Q) : result Q :=
  if Qeq_bool y 0 then Raise ZeroDivisionError else Ok (x / y).

(** The measuring loop of [_estimate_model_size]: the pair
    [(total_active_size, total_inactive_size)]. *)
Definition measure_leaves (learning_nodes : list Found_t) : Z * Z :=
  fold_left
    (fun totals found_node =>
       if negb (is_leaf (node found_node)) then totals
       else if isinstance_ActiveLeaf
                 (ObjNode (@Leaf Stats SplitTest (node found_node)))
       then (fst totals + calculate_object_size (node found_node),
             snd totals)%Z
       else (fst totals,
             snd totals + calculate_object_size (node found_node))%Z)
    learning_nodes (0, 0)%Z.

(** [_estimate_model_size] up to and including the two [if total_... > 0]
    statements. *)
Definition update_leaf_size_estimates (t : DecisionTree)
  : result DecisionTree :=
  let totals := measure_leaves (find_learning_nodes t) in
  t <- (if (0 <? fst totals)%Z
        then q <- py_qdiv (inject_Z (fst totals))
                    (inject_Z (n_active_leaves t)) ;;
             Ok (set_active_leaf_size_estimate q t)
        else Ok t) ;;
  if (0 <? snd totals)%Z
  then q <- py_qdiv (inject_Z (snd totals))
              (inject_Z (n_inactive_leaves t)) ;;
       Ok (set_inactive_leaf_size_estimate q t)
  else Ok t.

(** [estimated_model_size] in [_estimate_model_size]. *)
Definition estimated_model_size (t : DecisionTree) : Q :=
  inject_Z (n_active_leaves t) * active_leaf_size_estimate t
  + inject_Z (n_inactive_leaves t) * inactive_leaf_size_estimate t.

(** [_estimate_model_size] from [actual_model_size = ...] on. *)
Definition update_overhead_fraction (t : DecisionTree)
  : result DecisionTree :=
  let actual_model_size := calculate_tree_size t in
  q <- py_qdiv (inject_Z actual_model_size) (estimated_model_size t) ;;
  let t := set_size_estimate_overhead_fraction q t in
  if (max_byte_size t <? actual_model_size)%Z
  then Ok (enforce_size_limit t)
  else Ok t.

(** [_estimate_model_size] *)
Definition estimate_model_size (t : DecisionTree) : result DecisionTree :=
  t <- update_leaf_size_estimates t ;;
  update_overhead_fraction t.

(** The contribution the specification gives to the estimated tree size. *)
Definition spec_tree_size (t : DecisionTree) : Q :=
  (inject_Z (n_active_leaves t) * active_leaf_size_estimate t
   + inject_Z (n_inactive_leaves t) * inactive_leaf_size_estimate t)
  * size_estimate_overhead_fraction t.

(** ** Sequences of transitions *)

Inductive Transition : Type :=
| Activate (f : Found_t)
| Deactivate (f : Found_t).

Definition target (tr : Transition) : Found_t :=
  match tr with
  | Activate f => f
  | Deactivate f => f
  end.

Definition apply_transition (t : DecisionTree) (tr : Transition)
  : DecisionTree :=
  match tr with
  | Activate f => activate_leaf (node f) (parent f) (parent_branch f) t
  | Deactivate f => deactivate_leaf (node f) (parent f) (parent_branch f) t
  end.

Definition run (trs : list Transition) (t : DecisionTree) : DecisionTree :=
  fold_left apply_transition trs t.

(** Every transition of the sequence is applied to a learning node found
    in the tree at that moment. *)
Fixpoint on_found_nodes (trs : list Transition) (t : DecisionTree) : Prop :=
  match trs with
  | [] => True
  | tr :: trs' =>
      In (target tr) (find_learning_nodes t)
      /\ on_found_nodes trs' (apply_transition t tr)
  end.

(** Leaves reachable from the root, by mode. *)
Definition count_mode (m : LeafMode) (l : list Found_t) : nat :=
  length (filter (fun f => LeafMode_eqb (mode (node f)) m) l).

Definition active_leaves (t : DecisionTree) : nat :=
  count_mode ActiveLeaf (find_learning_nodes t).

Definition inactive_leaves (t : DecisionTree) : nat :=
  count_mode InactiveLeaf (find_learning_nodes t).

(** *** Auxiliary notions: the outcome of the enforcement loops *)

(** The leaf that [_deactivate_leaf] ([is_active = false]) or
    [_activate_leaf] ([is_active = true]) puts in place of [l]. *)
Definition replacement (is_active : bool) (l : Leaf_t) : Leaf_t :=
  decrement_depth (new_learning_node (stats l) (Some l) is_active).

(** The leaf held by a slot after the body of the first loop ran on it. *)
Definition after_deactivation (l : Leaf_t) : Leaf_t :=
  if LeafMode_eqb (mode l) ActiveLeaf then replacement false l else l.

(** The leaf held by a slot after the body of the second loop ran on it. *)
Definition after_activation (t : DecisionTree) (l : Leaf_t) : Leaf_t :=
  if LeafMode_eqb (mode l) InactiveLeaf && below_max_depth t (depth l)
  then replacement true l
  else l.

(** [g] once the slots of the found nodes [ps] hold [change] of their
    leaf. *)
Definition retag (change : Leaf_t -> Leaf_t) (ps : list Found_t)
           (g : Found_t) : Found_t :=
  if existsb (fun f => NodeRef_eqb (slot f) (slot g)) ps
  then mkFoundNode (change (node g)) (parent g) (parent_branch g)
  else g.

(** The two leaf counters agree with the tree. *)
Definition counters_agree (t : DecisionTree) : Prop :=
  n_active_leaves t = Z.of_nat (active_leaves t)
  /\ n_inactive_leaves t = Z.of_nat (inactive_leaves t).

(** The state [t] with another root and other leaf counters: all that the
    activation transitions change. *)
Definition rebuild (r : option Node_t) (n_active n_inactive : Z)
           (t : DecisionTree) : DecisionTree :=
  set_leaf_counts n_active n_inactive (set_tree_root r t).

(** *** The contract of the leaf factory

    [_new_learning_node] returns a leaf of the mode it is asked for, and a
    leaf created from another one has the promise of that one. *)

Definition mode_of (is_active : bool) : LeafMode :=
  if is_active then ActiveLeaf else InactiveLeaf.

Definition FactoryRespectsMode : Prop :=
  forall s p is_active,
    mode (new_learning_node s p is_active) = mode_of is_active.

Definition FactoryKeepsPromise : Prop :=
  forall l is_active,
    calculate_promise (replacement is_active l) = calculate_promise l.

Definition b2n (b : bool) : nat := if b then 1%nat else 0%nat.

End Engine.

Arguments deactivate_if_active {Stats SplitTest collab} t f.
Arguments activate_if_inactive {Stats SplitTest collab} t f.
Arguments after_deactivation {Stats SplitTest collab} l.
Arguments after_activation {Stats SplitTest collab} t l.
Arguments apply_transition {Stats SplitTest collab} t tr.
Arguments counters_agree {Stats SplitTest} t.
Arguments FactoryRespectsMode {Stats SplitTest} collab.
Arguments FactoryKeepsPromise {Stats SplitTest} collab.

(** ** More of the class *)

Section EngineAccessors.

Variable Stats : Type.
Variable SplitTest : Type.
Context {collab : Collaborators Stats SplitTest}.

(** Modelled from the spec: [SplitNode.get_child(index)], the child at
    [index] or [None]. *)
Definition get_child (cs : list (Node Stats SplitTest)) (index : nat)
  : option (Node Stats SplitTest) :=
  nth_error cs index.

(** The node reached from [n] by [get_child] along the branch indices
    [p]. *)
Fixpoint subtree_at (n : Node Stats SplitTest) (p : NodeRef) {struct p}
  : option (Node Stats SplitTest) :=
  match p with
  | [] => Some n
  | i :: p' =>
      match n with
      | Leaf _ => None
      | Split _ _ _ cs =>
          match get_child cs i with
          | Some c => subtree_at c p'
          | None => None
          end
      end
  end.

(** The [max_size] property. *)
Definition get_max_size (t : DecisionTree Stats SplitTest) : Z :=
  max_size t.

(** The [max_size] setter. *)
Definition set_max_size (size : Z) (t : DecisionTree Stats SplitTest)
  : DecisionTree Stats SplitTest :=
  mkDecisionTree (max_depth t) (binary_split t) size (size * 2 ^ 20)
    (memory_estimate_period t) (stop_mem_management t) (remove_poor_atts t)
    (merit_preprune t) (tree_root t) (n_decision_nodes t) (n_active_leaves t)
    (n_inactive_leaves t) (inactive_leaf_size_estimate t)
    (active_leaf_size_estimate t) (size_estimate_overhead_fraction t)
    (growth_allowed t) (train_weight_seen_by_model t).

(** The test [self._n_inactive_leaves > 0 or tree_size > self._max_byte_size]
    of [_enforce_size_limit]. *)
Definition over_limit (t : DecisionTree Stats SplitTest) : bool :=
  (0 <? n_inactive_leaves t)%Z
  || Qgtb (tree_size t) (inject_Z (max_byte_size t)).

(** The byte budget is the size in megabytes times [2 ** 20]. *)
Definition budget_consistent (t : DecisionTree Stats SplitTest) : Prop :=
  max_byte_size t = (max_size t * 2 ^ 20)%Z.

(** A leaf created from another one sits one level below it: with
    [new_leaf.depth -= 1] the transitions then keep the depth of a slot. *)
Definition FactoryPlacesBelow : Prop :=
  forall s l is_active,
    depth (new_learning_node s (Some l) is_active) = (depth l + 1)%Z.

(** The sum of [calculate_object_size] over the found nodes of mode [m]. *)
Fixpoint total_object_size (m : LeafMode) (l : list (FoundNode Stats)) : Z :=
  match l with
  | [] => 0
  | f :: l' =>
      if LeafMode_eqb (mode (node f)) m
      then calculate_object_size (node f) + total_object_size m l'
      else total_object_size m l'
  end.

(** The found nodes are in ascending order of promise. *)
Definition promise_le (f g : FoundNode Stats) : Prop :=
  (calculate_promise (node f) <= calculate_promise (node g))%Z.

Fixpoint ascending (l : list (FoundNode Stats)) : Prop :=
  match l with
  | [] => True
  | f :: l' => (forall g, In g l' -> promise_le f g) /\ ascending l'
  end.

(** The found nodes of [l] whose promise is [v], in the order of [l]. *)
Definition with_promise (v : Z) (l : list (FoundNode Stats))
  : list (FoundNode Stats) :=
  filter (fun f => (calculate_promise (node f) =? v)%Z) l.

(** The transition a [Transition] stands for creates a leaf of this
    mode. *)
Definition activates (tr : Transition Stats) : bool :=
  match tr with
  | Activate _ => true
  | Deactivate _ => false
  end.

End EngineAccessors.

Arguments FactoryPlacesBelow {Stats SplitTest} collab.
Arguments budget_consistent {Stats SplitTest} t.
Arguments promise_le {Stats SplitTest collab} f g.
Arguments subtree_at {Stats SplitTest} n p.
Arguments get_child {Stats SplitTest} cs index.

(** ** A concrete tree variant

    The statistics of a leaf are the weight it has seen, which is also its
    promise; a new leaf copies the statistics it is given and sits one
    level below the leaf it is created from. *)

Definition demo_new_learning_node (initial_stats : Z)
           (parent : option (LearningNode Z)) (is_active : bool)
  : LearningNode Z :=
  mkLearningNode initial_stats
    (match parent with Some l => depth l + 1 | None => 0 end)%Z
    (mode_of is_active).

Definition demo_object_size (l : LearningNode Z) : Z :=
  match mode l with
  | ActiveLeaf => 600000
  | InactiveLeaf => 100
  end.

#[export] Instance demo_collaborators : Collaborators Z unit := {|
  new_learning_node := demo_new_learning_node;
  calculate_promise := fun l => stats l;
  calculate_object_size := demo_object_size;
  calculate_tree_size := fun _ => 2000000%Z
|}.

(** A state with the given root, counters and estimates; [max_size] is in
    megabytes, as in [__init__]. *)
Definition demo_state (max_depth : option Z) (max_size : Z)
           (stop_mem_management : bool) (root : option (Node Z unit))
           (n_decision n_active n_inactive : Z)
           (inactive_estimate active_estimate : Q)
  : DecisionTree Z unit :=
  mkDecisionTree max_depth false max_size (max_size * 2 ^ 20) 1000000
    stop_mem_management false true root n_decision n_active n_inactive
    inactive_estimate active_estimate 1 true 0.

Definition demo_leaf (weight : Z) (depth : Z) (m : LeafMode) : Node Z unit :=
  Leaf (mkLearningNode weight depth m).

(** One active leaf as root. *)
Definition single_leaf : DecisionTree Z unit :=
  demo_state None 1 false (Some (demo_leaf 5 0 ActiveLeaf)) 0 1 0 0 0.

(** Two active leaves of 600000 bytes each under a split, with a budget of
    one megabyte. *)
Definition two_active : DecisionTree Z unit :=
  demo_state None 1 false
    (Some (Split tt 12%Z 0%Z
             [demo_leaf 7 1 ActiveLeaf; demo_leaf 3 1 ActiveLeaf]))
    1 2 0 100 600000.

(** An active and an inactive leaf at depth 1, with [max_depth = 1] and a
    budget of 100 megabytes. *)
Definition deep_inactive : DecisionTree Z unit :=
  demo_state (Some 1%Z) 100 false
    (Some (Split tt 12%Z 0%Z
             [demo_leaf 3 1 ActiveLeaf; demo_leaf 7 1 InactiveLeaf]))
    1 1 1 100 600000.

(** Two active leaves, no inactive leaf, an inactive estimate above the
    budget, and [stop_mem_management] set. *)
Definition stale_estimate : DecisionTree Z unit :=
  demo_state None 1 true
    (Some (Split tt 12%Z 0%Z
             [demo_leaf 7 1 ActiveLeaf; demo_leaf 3 1 ActiveLeaf]))
    1 2 0 2000000 1.

(** The two active leaves of [two_active], with [stop_mem_management]
    set. *)
Definition two_active_stop : DecisionTree Z unit :=
  demo_state None 1 true
    (Some (Split tt 12%Z 0%Z
             [demo_leaf 7 1 ActiveLeaf; demo_leaf 3 1 ActiveLeaf]))
    1 2 0 100 600000.

(** An over-budget tree with [stop_mem_management] set. *)
Definition over_budget : DecisionTree Z unit :=
  demo_state None 1 true
    (Some (Split tt 12%Z 0%Z
             [demo_leaf 7 1 ActiveLeaf; demo_leaf 3 1 InactiveLeaf]))
    1 1 1 100 2000000.

(** * Properties *)

(** ** The Hoeffding bound *)

Section HoeffdingBoundProperties.

Variable libm_log : float -> float.



(** A float that is neither a NaN nor infinite is a zero or a finite
    number. *)
Lemma finite_cases (r : float) :
  is_nan r || is_infinity r = false ->
  (exists s, Prim2SF r = S754_zero s)
  \/ (exists s m e, Prim2SF r = S754_finite s m e).
Proof.
  intros H. apply orb_false_elim in H. destruct H as [Hnan Hinf].
  unfold is_nan in Hnan. rewrite eqb_spec in Hnan.
  unfold is_infinity in Hinf. rewrite eqb_spec, abs_spec in Hinf.
  replace (Prim2SF infinity) with (S754_infinity false) in Hinf
    by reflexivity.
  destruct (Prim2SF r) as [s | s | | s m e].
  - left. now exists s.
  - destruct s; discriminate.
  - discriminate.
  - right. now exists s, m, e.
Qed.

(** Zero times a finite float is a zero. *)
Lemma mul_zero_finite (r : float) :
  is_nan r || is_infinity r = false ->
  (0 * r = 0)%float \/ (0 * r = -0)%float.
Proof.
  intros H.
  assert (E : exists s, Prim2SF (0 * r) = S754_zero s).
  { rewrite mul_spec.
    replace (Prim2SF 0) with (S754_zero false) by reflexivity.
    destruct (finite_cases r H) as [[s ->] | [s [m [e ->]]]];
      now exists s. }
  destruct E as [s E]. apply (f_equal SF2Prim) in E.
  rewrite SF2Prim_Prim2SF in E. destruct s; [right | left]; exact E.
Qed.



(** With [confidence = 1.0], for a logarithm that is 0 at 1, the call
    returns 0. *)
Lemma hoeffding_bound_confidence_one :
  libm_log 1%float = 0%float ->
  hoeffding_bound libm_log 1 1 1 = Ok 0%float.
Proof.
  intros H. unfold hoeffding_bound.
  replace (py_div 1 1) with (Ok 1%float) by reflexivity. simpl bind.
  replace (py_log libm_log 1) with (Ok 0%float)
    by (unfold py_log; simpl; now rewrite H).
  reflexivity.
Qed.

(** When the square of [range_val] underflows, as for [2 ** -700], the
    call returns a zero for a finite logarithm. *)
Lemma hoeffding_bound_underflow :
  is_nan (libm_log 2) || is_infinity (libm_log 2) = false ->
  exists e,
    hoeffding_bound libm_log 0x1p-700 0.5 1 = Ok e
    /\ (e =? 0)%float = true.
Proof.
  intros H. unfold hoeffding_bound.
  replace (py_div 1 0.5) with (Ok 2%float) by reflexivity. simpl bind.
  replace (py_log libm_log 2) with (Ok (libm_log 2))
    by (unfold py_log; simpl; now rewrite H).
  simpl bind.
  replace (0x1p-700 * 0x1p-700)%float with 0%float by reflexivity.
  destruct (mul_zero_finite _ H) as [-> | ->].
  - exists 0%float. now split.
  - exists (-0)%float. now split.
Qed.





End HoeffdingBoundProperties.


(** ** Leaves and their positions *)

Section NodeProperties.

Variable Stats : Type.
Variable SplitTest : Type.

Notation Leaf_t := (LearningNode Stats).
Notation Node_t := (Node Stats SplitTest).
Notation Found_t := (FoundNode Stats).

(** Induction on nodes, with the hypothesis available for every child. *)
Lemma Node_ind_children (P : Node_t -> Prop) :
  (forall l, P (Leaf l)) ->
  (forall test st d cs, Forall P cs -> P (Split test st d cs)) ->
  forall n, P n.
Proof.
  intros HLeaf HSplit.
  fix IH 1. intros [l | test st d cs].
  - apply HLeaf.
  - apply HSplit. induction cs as [| c cs IHcs]; constructor.
    + apply IH.
    + apply IHcs.
Qed.

Lemma NodeRef_eqb_eq (p q : NodeRef) : NodeRef_eqb p q = true <-> p = q.
Proof.
  unfold NodeRef_eqb. destruct (list_eq_dec Nat.eq_dec p q); split;
    congruence.
Qed.

Lemma NodeRef_eqb_refl (p : NodeRef) : NodeRef_eqb p p = true.
Proof. now apply NodeRef_eqb_eq. Qed.

Lemma NodeRef_eqb_neq (p q : NodeRef) : p <> q -> NodeRef_eqb p q = false.
Proof.
  intros H. destruct (NodeRef_eqb p q) eqn:E; [|reflexivity].
  apply NodeRef_eqb_eq in E. contradiction.
Qed.

Lemma set_nth_alter_nth (cs : list Node_t) (i : nat) (new : Node_t) :
  set_nth cs i new = alter_nth (fun _ => new) cs i.
Proof.
  revert i. induction cs as [| c cs IH]; intros [| i]; simpl; try reflexivity.
  now rewrite IH.
Qed.

Lemma alter_nth_ext (g h : Node_t -> Node_t) (cs : list Node_t) (i : nat) :
  (forall c, g c = h c) -> alter_nth g cs i = alter_nth h cs i.
Proof.
  intros E. revert i. induction cs as [| c cs IH]; intros [| i]; simpl;
    try reflexivity.
  - now rewrite E.
  - now rewrite IH.
Qed.

(** Setting a child of the split node at [ref] replaces the subtree at the
    position of that child. *)
Lemma set_child_at_replace_at (ref : NodeRef) :
  forall (root : Node_t) (b : nat) (new : Node_t),
    set_child_at root ref b new = replace_at root (ref ++ [b]) new.
Proof.
  induction ref as [| i ref IH]; intros [l | test st d cs] b new; simpl;
    try reflexivity.
  - now rewrite set_nth_alter_nth.
  - f_equal. apply alter_nth_ext. intros c. apply IH.
Qed.

(** *** What [find_learning_nodes_from] records *)

Lemma found_at_push (parent : option NodeRef) (parent_branch : Z) (i : nat)
      (lp : Leaf_t * NodeRef) :
  found_at parent parent_branch (fst lp, i :: snd lp)
  = found_at (Some (slot_ref parent parent_branch)) (Z.of_nat i) lp.
Proof.
  destruct lp as [l [| j p]]; unfold found_at; cbn [fst snd].
  - simpl. now rewrite app_nil_r.
  - change (removelast (i :: j :: p)) with (i :: removelast (j :: p)).
    change (last (i :: j :: p) O) with (last (j :: p) O).
    cbn [slot_ref]. rewrite Nat2Z.id, <- app_assoc. reflexivity.
Qed.

Lemma find_learning_nodes_from_leaf_slots (n : Node_t) :
  forall parent parent_branch,
    find_learning_nodes_from n parent parent_branch
    = map (found_at parent parent_branch) (leaf_slots n).
Proof.
  induction n as [l | test st d cs IH] using Node_ind_children;
    intros parent parent_branch.
  - reflexivity.
  - simpl. generalize O as k.
    induction IH as [| c cs Hc _ IHcs]; intros k; [reflexivity|].
    simpl. rewrite map_app, map_map, IHcs, Hc.
    f_equal. apply map_ext. intros lp. symmetry. apply found_at_push.
Qed.

Lemma slot_found_at_root (lp : Leaf_t * NodeRef) :
  slot (found_at None (-1) lp) = snd lp.
Proof.
  destruct lp as [l [| i p]]; unfold found_at, slot; simpl; [reflexivity|].
  rewrite Nat2Z.id.
  change (removelast (i :: p) ++ [last (i :: p) O] = i :: p).
  symmetry. apply app_removelast_last. discriminate.
Qed.

Lemma node_found_at (parent : option NodeRef) (b : Z) (lp : Leaf_t * NodeRef) :
  node (found_at parent b lp) = fst lp.
Proof. destruct lp as [l [| i p]]; reflexivity. Qed.

(** *** Positions are distinct *)

Lemma in_push_branch (i j : nat) (l : Leaf_t) (p : NodeRef)
      (slots : list (Leaf_t * NodeRef)) :
  In (l, j :: p) (map (push_branch i) slots) -> j = i /\ In (l, p) slots.
Proof.
  intros H. apply in_map_iff in H. destruct H as [[l0 q] [E Hin]].
  unfold push_branch in E. simpl in E. inversion E; subst. now split.
Qed.

Lemma in_number_children (ls : list (list (Leaf_t * NodeRef))) :
  forall k lp, In lp (number_children k ls) ->
               exists j q, snd lp = j :: q /\ (k <= j)%nat.
Proof.
  induction ls as [| slots rest IH]; intros k lp Hin; simpl in Hin;
    [contradiction|].
  apply in_app_iff in Hin. destruct Hin as [Hin | Hin].
  - apply in_map_iff in Hin. destruct Hin as [lp0 [<- _]].
    exists k, (snd lp0). split; [reflexivity | lia].
  - destruct (IH _ _ Hin) as [j [q [E Hle]]]. exists j, q. split; [assumption | lia].
Qed.

Lemma NoDup_number_children (ls : list (list (Leaf_t * NodeRef))) :
  Forall (fun slots => NoDup (map snd slots)) ls ->
  forall k, NoDup (map snd (number_children k ls)).
Proof.
  induction 1 as [| slots rest Hs _ IH]; intros k; simpl; [constructor|].
  rewrite map_app. apply NoDup_app.
  - rewrite map_map. simpl.
    rewrite <- (map_map snd (cons k)).
    apply NoDup_map_NoDup_ForallPairs; [|assumption].
    intros x y _ _ E. now inversion E.
  - apply IH.
  - intros p Hp Hq.
    apply in_map_iff in Hp. destruct Hp as [lp [<- Hp]].
    apply in_map_iff in Hp. destruct Hp as [lp0 [<- _]].
    apply in_map_iff in Hq. destruct Hq as [lq [E Hq]].
    destruct (in_number_children _ _ _ Hq) as [j [q [Ej Hle]]].
    rewrite Ej in E. simpl in E. inversion E. lia.
Qed.

Lemma NoDup_leaf_slots (n : Node_t) : NoDup (map snd (leaf_slots n)).
Proof.
  induction n as [l | test st d cs IH] using Node_ind_children; simpl.
  - constructor; [intros [] | constructor].
  - apply NoDup_number_children. now apply Forall_map.
Qed.

(** *** Replacing a leaf *)

Lemma relabel_other (p : NodeRef) (l : Leaf_t) (slots : list (Leaf_t * NodeRef)) :
  (forall lp, In lp slots -> snd lp <> p) ->
  map (relabel p l) slots = slots.
Proof.
  intros H. rewrite <- (map_id slots) at 2. apply map_ext_in.
  intros lp Hin. unfold relabel. now rewrite NodeRef_eqb_neq by now apply H.
Qed.

Lemma relabel_push_branch (i : nat) (p : NodeRef) (l : Leaf_t)
      (lp : Leaf_t * NodeRef) :
  push_branch i (relabel p l lp) = relabel (i :: p) l (push_branch i lp).
Proof.
  unfold relabel, push_branch. simpl.
  destruct (NodeRef_eqb (snd lp) p) eqn:E.
  - apply NodeRef_eqb_eq in E. subst. now rewrite NodeRef_eqb_refl.
  - rewrite NodeRef_eqb_neq; [reflexivity|].
    intros E'. inversion E'. subst. now rewrite NodeRef_eqb_refl in E.
Qed.

Lemma number_children_replace (new : Leaf_t) (cs : list Node_t) :
  Forall (fun c => forall p l, In (l, p) (leaf_slots c) ->
                     leaf_slots (replace_at c p (Leaf new))
                     = map (relabel p new) (leaf_slots c)) cs ->
  forall k i p l,
    In (l, i :: p) (number_children k (map leaf_slots cs)) ->
    number_children k
      (map leaf_slots
         (alter_nth (fun c => replace_at c p (Leaf new)) cs (i - k)))
    = map (relabel (i :: p) new) (number_children k (map leaf_slots cs)).
Proof.
  induction 1 as [| c cs Hc _ IH]; intros k i p l Hin; simpl in Hin;
    [contradiction|].
  apply in_app_iff in Hin. destruct Hin as [Hin | Hin].
  - apply in_push_branch in Hin. destruct Hin as [-> Hin].
    rewrite Nat.sub_diag. simpl. rewrite map_app. f_equal.
    + rewrite (Hc _ _ Hin), !map_map. apply map_ext. intros lp.
      apply relabel_push_branch.
    + symmetry. apply relabel_other. intros lp Hlp E.
      destruct (in_number_children _ _ _ Hlp) as [j [q [Ej Hle]]].
      rewrite Ej in E. inversion E. lia.
  - destruct (in_number_children _ _ _ Hin) as [j [q [Ej Hle]]].
    simpl in Ej. inversion Ej; subst j q.
    replace (i - k)%nat with (S (i - S k)) by lia.
    simpl. rewrite map_app. f_equal.
    + symmetry. apply relabel_other. intros lp Hlp E.
      apply in_map_iff in Hlp. destruct Hlp as [lp0 [<- _]].
      unfold push_branch in E. simpl in E. inversion E. lia.
    + now apply IH with (l := l).
Qed.

Lemma leaf_slots_replace_at (new : Leaf_t) (n : Node_t) :
  forall p l,
    In (l, p) (leaf_slots n) ->
    leaf_slots (replace_at n p (Leaf new))
    = map (relabel p new) (leaf_slots n).
Proof.
  induction n as [l0 | test st d cs IH] using Node_ind_children;
    intros p l Hin.
  - simpl in Hin. destruct Hin as [E | []]. inversion E; subst. reflexivity.
  - simpl in Hin.
    destruct (in_number_children _ _ _ Hin) as [i [q [E _]]].
    simpl in E. subst p. simpl.
    rewrite <- (@number_children_replace new cs IH O i q l Hin).
    now rewrite Nat.sub_0_r.
Qed.

End NodeProperties.

(** ** The tree engine *)

Section EngineProperties.

Variable Stats : Type.
Variable SplitTest : Type.
Context {collab : Collaborators Stats SplitTest}.

Notation Leaf_t := (LearningNode Stats).
Notation Node_t := (Node Stats SplitTest).
Notation Found_t := (FoundNode Stats).
Notation Tree_t := (DecisionTree Stats SplitTest).

Lemma found_eta (f : Found_t) :
  mkFoundNode (node f) (parent f) (parent_branch f) = f.
Proof. now destruct f. Qed.

Lemma find_learning_nodes_root (t : Tree_t) (root : Node_t) :
  tree_root t = Some root ->
  find_learning_nodes t = map (found_at None (-1)) (leaf_slots root).
Proof.
  intros E. unfold find_learning_nodes. rewrite E.
  apply find_learning_nodes_from_leaf_slots.
Qed.

Lemma in_find_learning_nodes (t : Tree_t) (f : Found_t) :
  In f (find_learning_nodes t) ->
  exists root lp,
    tree_root t = Some root /\ In lp (leaf_slots root)
    /\ f = found_at None (-1) lp.
Proof.
  unfold find_learning_nodes. destruct (tree_root t) as [root |] eqn:E;
    [| intros []].
  rewrite find_learning_nodes_from_leaf_slots. intros Hin.
  apply in_map_iff in Hin. destruct Hin as [lp [<- Hin]].
  now exists root, lp.
Qed.

Lemma NoDup_slots (t : Tree_t) : NoDup (map slot (find_learning_nodes t)).
Proof.
  unfold find_learning_nodes. destruct (tree_root t) as [root |];
    [| constructor].
  rewrite find_learning_nodes_from_leaf_slots, map_map.
  rewrite (map_ext _ snd) by apply slot_found_at_root.
  apply NoDup_leaf_slots.
Qed.

Lemma NoDup_map_injective {A B : Type} (h : A -> B) (l : list A) :
  NoDup (map h l) ->
  forall x y, In x l -> In y l -> h x = h y -> x = y.
Proof.
  induction l as [| a l IH]; intros Hnd x y Hx Hy E; [destruct Hx|].
  simpl in Hnd. inversion Hnd as [| ? ? Hnotin Hnd']; subst.
  destruct Hx as [-> | Hx], Hy as [-> | Hy].
  - reflexivity.
  - exfalso. apply Hnotin. rewrite E. now apply in_map.
  - exfalso. apply Hnotin. rewrite <- E. now apply in_map.
  - now apply IH.
Qed.

Lemma slot_injective (t : Tree_t) (f g : Found_t) :
  In f (find_learning_nodes t) -> In g (find_learning_nodes t) ->
  slot f = slot g -> f = g.
Proof. apply NoDup_map_injective, NoDup_slots. Qed.

Lemma found_at_relabel (p : NodeRef) (new : Leaf_t) (lp : Leaf_t * NodeRef) :
  found_at None (-1) (relabel p new lp)
  = refresh p new (found_at None (-1) lp).
Proof.
  unfold relabel, refresh. rewrite slot_found_at_root.
  destruct (NodeRef_eqb (snd lp) p); [|reflexivity].
  now destruct lp as [l [| i q]].
Qed.

(** Attaching a leaf at the slot of a found node changes that found node
    only. *)
Lemma find_learning_nodes_attach (t : Tree_t) (f : Found_t) (new : Leaf_t) :
  In f (find_learning_nodes t) ->
  find_learning_nodes (attach new (parent f) (parent_branch f) t)
  = map (refresh (slot f) new) (find_learning_nodes t).
Proof.
  intros Hin.
  destruct (in_find_learning_nodes _ _ Hin) as [root [[l p] [Er [Hlp ->]]]].
  rewrite (find_learning_nodes_root _ Er), slot_found_at_root. simpl snd.
  assert (Ea : attach new (parent (found_at None (-1) (l, p)))
                 (parent_branch (found_at None (-1) (l, p))) t
               = set_tree_root (Some (replace_at root p (Leaf new))) t).
  { destruct p as [| i q]; [reflexivity|].
    unfold found_at, attach; cbn [snd fst parent parent_branch].
    rewrite Er, Nat2Z.id, set_child_at_replace_at.
    change (slot_ref None (-1)) with (@nil nat). rewrite app_nil_l.
    now rewrite <- app_removelast_last by discriminate. }
  rewrite Ea. unfold find_learning_nodes. cbn [tree_root set_tree_root].
  rewrite find_learning_nodes_from_leaf_slots.
  rewrite (leaf_slots_replace_at new root p l Hlp), !map_map.
  apply map_ext. intros lp. apply found_at_relabel.
Qed.

Lemma refresh_same_leaf (t : Tree_t) (f : Found_t) :
  In f (find_learning_nodes t) ->
  map (refresh (slot f) (node f)) (find_learning_nodes t)
  = find_learning_nodes t.
Proof.
  intros Hin. rewrite <- (map_id (find_learning_nodes t)) at 2.
  apply map_ext_in. intros g Hg. unfold refresh.
  destruct (NodeRef_eqb (slot g) (slot f)) eqn:E; [|reflexivity].
  apply NodeRef_eqb_eq in E.
  rewrite (slot_injective t g f Hg Hin E). apply found_eta.
Qed.

Lemma find_deactivate_leaf (t : Tree_t) (f : Found_t) :
  In f (find_learning_nodes t) ->
  find_learning_nodes
    (deactivate_leaf (node f) (parent f) (parent_branch f) t)
  = map (refresh (slot f) (replacement false (node f)))
      (find_learning_nodes t).
Proof. intros Hin. exact (find_learning_nodes_attach t f _ Hin). Qed.

Lemma find_activate_leaf (t : Tree_t) (f : Found_t) :
  In f (find_learning_nodes t) ->
  find_learning_nodes
    (activate_leaf (node f) (parent f) (parent_branch f) t)
  = map (refresh (slot f) (replacement true (node f)))
      (find_learning_nodes t).
Proof. intros Hin. exact (find_learning_nodes_attach t f _ Hin). Qed.

Lemma find_deactivate_if_active (t : Tree_t) (f : Found_t) :
  In f (find_learning_nodes t) ->
  find_learning_nodes (deactivate_if_active t f)
  = map (refresh (slot f) (after_deactivation (node f)))
      (find_learning_nodes t).
Proof.
  intros Hin. unfold deactivate_if_active, after_deactivation. simpl.
  destruct (LeafMode_eqb (mode (node f)) ActiveLeaf).
  - now apply find_deactivate_leaf.
  - symmetry. now apply refresh_same_leaf.
Qed.

Lemma find_activate_if_inactive (t : Tree_t) (f : Found_t) :
  In f (find_learning_nodes t) ->
  find_learning_nodes (activate_if_inactive t f)
  = map (refresh (slot f) (after_activation t (node f)))
      (find_learning_nodes t).
Proof.
  intros Hin. unfold activate_if_inactive, after_activation. simpl.
  destruct (LeafMode_eqb (mode (node f)) InactiveLeaf
            && below_max_depth t (depth (node f))).
  - now apply find_activate_leaf.
  - symmetry. now apply refresh_same_leaf.
Qed.

(** *** A loop over distinct found nodes *)

Lemma slot_refresh (p : NodeRef) (new : Leaf_t) (g : Found_t) :
  slot (refresh p new g) = slot g.
Proof. unfold refresh. now destruct (NodeRef_eqb (slot g) p). Qed.

Lemma retag_nil (change : Leaf_t -> Leaf_t) (g : Found_t) :
  retag change [] g = g.
Proof. reflexivity. Qed.

Lemma retag_not_in (change : Leaf_t -> Leaf_t) (ps : list Found_t)
      (g : Found_t) :
  ~ In (slot g) (map slot ps) -> retag change ps g = g.
Proof.
  intros Hnot. unfold retag.
  destruct (existsb (fun f => NodeRef_eqb (slot f) (slot g)) ps) eqn:E;
    [|reflexivity].
  exfalso. apply Hnot. apply existsb_exists in E. destruct E as [f [Hf E]].
  apply NodeRef_eqb_eq in E. rewrite <- E. now apply in_map.
Qed.

Lemma retag_in (change : Leaf_t -> Leaf_t) (ps : list Found_t)
      (g : Found_t) :
  In g ps ->
  retag change ps g = mkFoundNode (change (node g)) (parent g) (parent_branch g).
Proof.
  intros Hin. unfold retag.
  destruct (existsb (fun f => NodeRef_eqb (slot f) (slot g)) ps) eqn:E;
    [reflexivity|].
  assert (H : existsb (fun f => NodeRef_eqb (slot f) (slot g)) ps = true).
  { apply existsb_exists. exists g. split; [assumption|]. apply NodeRef_eqb_refl. }
  congruence.
Qed.

Lemma slot_retag (change : Leaf_t -> Leaf_t) (ps : list Found_t) (g : Found_t) :
  slot (retag change ps g) = slot g.
Proof.
  unfold retag.
  now destruct (existsb (fun f => NodeRef_eqb (slot f) (slot g)) ps).
Qed.

Section Loop.

Variable step : Tree_t -> Found_t -> Tree_t.
Variable change : Leaf_t -> Leaf_t.
Variable Inv : Tree_t -> Prop.

Hypothesis step_find : forall t f,
    Inv t -> In f (find_learning_nodes t) ->
    find_learning_nodes (step t f)
    = map (refresh (slot f) (change (node f))) (find_learning_nodes t).

Hypothesis step_inv : forall t f,
    Inv t -> In f (find_learning_nodes t) -> Inv (step t f).

Lemma loop_find (ps : list Found_t) :
  forall t,
    Inv t -> NoDup (map slot ps) -> incl ps (find_learning_nodes t) ->
    find_learning_nodes (fold_left step ps t)
    = map (retag change ps) (find_learning_nodes t)
    /\ Inv (fold_left step ps t).
Proof.
  induction ps as [| f ps IH]; intros t HI Hnd Hincl.
  - split; [|assumption]. simpl.
    rewrite <- (map_id (find_learning_nodes t)) at 1. reflexivity.
  - simpl in Hnd. inversion Hnd as [| ? ? Hnotin Hnd']; subst.
    assert (Hf : In f (find_learning_nodes t)) by (apply Hincl; now left).
    assert (Hincl' : incl ps (find_learning_nodes (step t f))).
    { intros g Hg. rewrite step_find by assumption.
      assert (Hne : slot g <> slot f).
      { intros E. apply Hnotin. rewrite <- E. now apply in_map. }
      replace g with (refresh (slot f) (change (node f)) g) at 1.
      - apply in_map. apply Hincl. now right.
      - unfold refresh. now rewrite NodeRef_eqb_neq. }
    destruct (IH (step t f) (@step_inv t f HI Hf) Hnd' Hincl') as [Efind HI'].
    split; [|exact HI'].
    simpl. rewrite Efind, step_find, map_map by assumption.
    apply map_ext_in. intros g Hg.
    unfold refresh at 1.
    destruct (NodeRef_eqb (slot g) (slot f)) eqn:E.
    + apply NodeRef_eqb_eq in E.
      assert (g = f) by now apply (slot_injective t).
      subst g. rewrite (retag_in change (f :: ps) f) by now left.
      apply retag_not_in. exact Hnotin.
    + unfold retag. simpl.
      assert (E' : NodeRef_eqb (slot f) (slot g) = false).
      { apply NodeRef_eqb_neq. intros H. rewrite H, NodeRef_eqb_refl in E.
        discriminate. }
      now rewrite E'.
Qed.

End Loop.

(** *** The transitions change the root and the leaf counters only *)

Lemma rebuild_self (t : Tree_t) :
  rebuild (tree_root t) (n_active_leaves t) (n_inactive_leaves t) t = t.
Proof. now destruct t. Qed.

Lemma attach_rebuild (new : Leaf_t) (p : option NodeRef) (b : Z) (t : Tree_t) :
  exists r, attach new p b t
            = rebuild r (n_active_leaves t) (n_inactive_leaves t) t.
Proof.
  unfold attach. destruct p as [ref |].
  - destruct (tree_root t) as [root |] eqn:E.
    + eexists. reflexivity.
    + exists None. rewrite <- E. symmetry. apply rebuild_self.
  - eexists. reflexivity.
Qed.

Lemma deactivate_leaf_rebuild (l : Leaf_t) (p : option NodeRef) (b : Z)
      (t : Tree_t) :
  exists r, deactivate_leaf l p b t
            = rebuild r (n_active_leaves t - 1) (n_inactive_leaves t + 1) t.
Proof.
  unfold deactivate_leaf.
  destruct (attach_rebuild (replacement false l) p b t) as [r E].
  exists r. unfold replacement in E. rewrite E. reflexivity.
Qed.

Lemma activate_leaf_rebuild (l : Leaf_t) (p : option NodeRef) (b : Z)
      (t : Tree_t) :
  exists r, activate_leaf l p b t
            = rebuild r (n_active_leaves t + 1) (n_inactive_leaves t - 1) t.
Proof.
  unfold activate_leaf.
  destruct (attach_rebuild (replacement true l) p b t) as [r E].
  exists r. unfold replacement in E. rewrite E. reflexivity.
Qed.

Lemma deactivate_if_active_rebuild (t : Tree_t) (f : Found_t) :
  exists r a b, deactivate_if_active t f = rebuild r a b t.
Proof.
  unfold deactivate_if_active.
  destruct (isinstance_ActiveLeaf _).
  - destruct (deactivate_leaf_rebuild (node f) (parent f) (parent_branch f) t)
      as [r E]. rewrite E. now eexists _, _, _.
  - exists (tree_root t), (n_active_leaves t), (n_inactive_leaves t).
    symmetry. apply rebuild_self.
Qed.

Lemma activate_if_inactive_rebuild (t : Tree_t) (f : Found_t) :
  exists r a b, activate_if_inactive t f = rebuild r a b t.
Proof.
  unfold activate_if_inactive.
  destruct (_ && _).
  - destruct (activate_leaf_rebuild (node f) (parent f) (parent_branch f) t)
      as [r E]. rewrite E. now eexists _, _, _.
  - exists (tree_root t), (n_active_leaves t), (n_inactive_leaves t).
    symmetry. apply rebuild_self.
Qed.

Lemma fold_rebuild (step : Tree_t -> Found_t -> Tree_t) :
  (forall t f, exists r a b, step t f = rebuild r a b t) ->
  forall ps t, exists r a b, fold_left step ps t = rebuild r a b t.
Proof.
  intros Hstep. induction ps as [| f ps IH]; intros t; simpl.
  - exists (tree_root t), (n_active_leaves t), (n_inactive_leaves t).
    symmetry. apply rebuild_self.
  - destruct (Hstep t f) as [r [a [b E]]]. rewrite E.
    destruct (IH (rebuild r a b t)) as [r' [a' [b' E']]]. rewrite E'.
    now exists r', a', b'.
Qed.

Lemma enforce_activation_rebuild (t : Tree_t) :
  exists r a b, enforce_activation t = rebuild r a b t.
Proof.
  unfold enforce_activation.
  set (sl := sort_by_promise (find_learning_nodes t)).
  set (cutoff := (length sl - max_active_scan t (length sl))%nat).
  destruct (fold_rebuild deactivate_if_active deactivate_if_active_rebuild
              (firstn cutoff sl) t) as [r [a [b E]]].
  rewrite E.
  destruct (fold_rebuild activate_if_inactive activate_if_inactive_rebuild
              (skipn cutoff sl) (rebuild r a b t)) as [r' [a' [b' E']]].
  rewrite E'. now exists r', a', b'.
Qed.

(** *** The sort *)

Lemma insert_by_promise_perm (f : Found_t) (l : list Found_t) :
  Permutation (insert_by_promise f l) (f :: l).
Proof.
  induction l as [| g l IH]; simpl; [reflexivity|].
  destruct (calculate_promise (node f) <=? calculate_promise (node g))%Z;
    [reflexivity|].
  rewrite IH. apply perm_swap.
Qed.

Lemma sort_by_promise_perm (l : list Found_t) :
  Permutation (sort_by_promise l) l.
Proof.
  induction l as [| f l IH]; simpl; [reflexivity|].
  rewrite insert_by_promise_perm. now apply perm_skip.
Qed.

Lemma sort_by_promise_length (l : list Found_t) :
  length (sort_by_promise l) = length l.
Proof. apply Permutation_length, sort_by_promise_perm. Qed.

Lemma insert_by_promise_map (h : Found_t -> Found_t) (f : Found_t)
      (l : list Found_t) :
  calculate_promise (node (h f)) = calculate_promise (node f) ->
  (forall g, In g l ->
             calculate_promise (node (h g)) = calculate_promise (node g)) ->
  insert_by_promise (h f) (map h l) = map h (insert_by_promise f l).
Proof.
  intros Ef. induction l as [| g l IH]; intros El; simpl; [reflexivity|].
  rewrite Ef, (El g) by now left.
  destruct (calculate_promise (node f) <=? calculate_promise (node g))%Z;
    [reflexivity|].
  simpl. rewrite IH; [reflexivity|]. intros g' Hg'. apply El. now right.
Qed.

(** The sort looks at the promises only. *)
Lemma sort_by_promise_map (h : Found_t -> Found_t) (l : list Found_t) :
  (forall g, In g l ->
             calculate_promise (node (h g)) = calculate_promise (node g)) ->
  sort_by_promise (map h l) = map h (sort_by_promise l).
Proof.
  induction l as [| f l IH]; intros El; simpl; [reflexivity|].
  rewrite IH by (intros g Hg; apply El; now right).
  apply insert_by_promise_map.
  - apply El. now left.
  - intros g Hg. apply El. right.
    apply (Permutation_in _ (sort_by_promise_perm l) Hg).
Qed.

(** *** The scan for [max_active] *)

Lemma max_active_loop_bounds (t : Tree_t) (len fuel : nat) :
  forall m, (m <= len)%nat ->
            (m <= max_active_loop t len fuel m <= len)%nat.
Proof.
  induction fuel as [| fuel IH]; intros m Hm; simpl; [lia|].
  destruct (m <? len)%nat eqn:E; [|lia].
  apply Nat.ltb_lt in E.
  destruct (Qgtb _ _); [lia|].
  specialize (IH (S m) E). lia.
Qed.

(** With [len - max_active] iterations left the loop has ended: more fuel
    does not change its result. *)
Lemma max_active_loop_fuel (t : Tree_t) (len fuel : nat) :
  forall m, (len - m <= fuel)%nat ->
            max_active_loop t len (S fuel) m = max_active_loop t len fuel m.
Proof.
  induction fuel as [| fuel IH]; intros m Hm.
  - simpl. destruct (m <? len)%nat eqn:E; [|reflexivity].
    apply Nat.ltb_lt in E. lia.
  - change (max_active_loop t len (S (S fuel)) m)
      with (if (m <? len)%nat
            then if Qgtb (projected_size t len (S m))
                      (inject_Z (max_byte_size t))
                 then (S m - 1)%nat
                 else max_active_loop t len (S fuel) (S m)
            else m).
    rewrite IH by lia. reflexivity.
Qed.

(** The result of the scan: every count tried up to it fits the budget, and
    the next one, when there is one, does not. *)
Lemma max_active_loop_spec (t : Tree_t) (len fuel : nat) :
  forall m,
    (m <= len)%nat -> (len - m <= fuel)%nat ->
    let r := max_active_loop t len fuel m in
    (forall k, (m < k <= r)%nat ->
               Qgtb (projected_size t len k) (inject_Z (max_byte_size t))
               = false)
    /\ ((r < len)%nat ->
        Qgtb (projected_size t len (S r)) (inject_Z (max_byte_size t))
        = true).
Proof.
  induction fuel as [| fuel IH]; intros m Hm Hfuel; simpl.
  - split; intros; lia.
  - destruct (m <? len)%nat eqn:E.
    + apply Nat.ltb_lt in E.
      destruct (Qgtb (projected_size t len (S m)) _) eqn:Q.
      * rewrite Nat.sub_0_r. split; [intros; lia | intros _; exact Q].
      * destruct (IH (S m)) as [Hfit Hnext]; [lia | lia |].
        split; [|exact Hnext].
        intros k Hk. destruct (Nat.eq_dec k (S m)) as [-> | Hne];
          [exact Q | apply Hfit; lia].
    + apply Nat.ltb_ge in E. split; intros; lia.
Qed.

Lemma max_active_scan_le (t : Tree_t) (len : nat) :
  (max_active_scan t len <= len)%nat.
Proof. apply max_active_loop_bounds. lia. Qed.

Lemma max_active_loop_rebuild (r : option Node_t) (a b : Z) (t : Tree_t)
      (len fuel : nat) :
  forall m, max_active_loop (rebuild r a b t) len fuel m
            = max_active_loop t len fuel m.
Proof.
  induction fuel as [| fuel IH]; intros m; simpl; [reflexivity|].
  rewrite IH. reflexivity.
Qed.

(** *** Counting leaves by mode *)

Lemma count_mode_app (m : LeafMode) (l l' : list Found_t) :
  count_mode m (l ++ l') = (count_mode m l + count_mode m l')%nat.
Proof. unfold count_mode. now rewrite filter_app, length_app. Qed.

Lemma count_mode_cons (m : LeafMode) (g : Found_t) (l : list Found_t) :
  count_mode m (g :: l)
  = (b2n (LeafMode_eqb (mode (node g)) m) + count_mode m l)%nat.
Proof.
  unfold count_mode. simpl. now destruct (LeafMode_eqb (mode (node g)) m).
Qed.

Lemma count_mode_perm (m : LeafMode) (l l' : list Found_t) :
  Permutation l l' -> count_mode m l = count_mode m l'.
Proof.
  induction 1 as [| g l l' _ IH | g h l | l l' l'' _ IH1 _ IH2].
  - reflexivity.
  - rewrite !count_mode_cons. now rewrite IH.
  - rewrite !count_mode_cons. lia.
  - now rewrite IH1.
Qed.

Lemma count_mode_le_length (m : LeafMode) (l : list Found_t) :
  (count_mode m l <= length l)%nat.
Proof. unfold count_mode. apply filter_length_le. Qed.

Lemma count_mode_none (m : LeafMode) (l : list Found_t) :
  (forall g, In g l -> LeafMode_eqb (mode (node g)) m = false) ->
  count_mode m l = O.
Proof.
  induction l as [| g l IH]; intros H; [reflexivity|].
  rewrite count_mode_cons, (H g) by now left.
  simpl. apply IH. intros g' Hg'. apply H. now right.
Qed.

Lemma refresh_other (p : NodeRef) (new : Leaf_t) (l : list Found_t) :
  ~ In p (map slot l) -> map (refresh p new) l = l.
Proof.
  intros Hnot. rewrite <- (map_id l) at 2. apply map_ext_in.
  intros g Hg. unfold refresh. rewrite NodeRef_eqb_neq; [reflexivity|].
  intros E. apply Hnot. rewrite <- E. now apply in_map.
Qed.

(** Replacing the leaf of one found node moves one unit between the
    counts. *)
Lemma count_mode_refresh (m : LeafMode) (f : Found_t) (new : Leaf_t)
      (l : list Found_t) :
  In f l -> NoDup (map slot l) ->
  (count_mode m (map (refresh (slot f) new) l)
   + b2n (LeafMode_eqb (mode (node f)) m)
   = count_mode m l + b2n (LeafMode_eqb (mode new) m))%nat.
Proof.
  induction l as [| g l IH]; intros Hin Hnd; [destruct Hin|].
  simpl in Hnd. inversion Hnd as [| ? ? Hnotin Hnd']; subst.
  simpl map. rewrite !count_mode_cons.
  unfold refresh at 1.
  destruct (NodeRef_eqb (slot g) (slot f)) eqn:E.
  - apply NodeRef_eqb_eq in E.
    assert (g = f).
    { destruct Hin as [-> | Hin]; [reflexivity|].
      exfalso. apply Hnotin. rewrite E. now apply in_map. }
    subst g. rewrite refresh_other by assumption. simpl. lia.
  - destruct Hin as [-> | Hin]; [now rewrite NodeRef_eqb_refl in E|].
    specialize (IH Hin Hnd'). lia.
Qed.

(** *** The leaves put in place by the transitions *)

Lemma after_activation_max_depth (t t' : Tree_t) (l : Leaf_t) :
  max_depth t' = max_depth t ->
  after_activation t' l = after_activation t l.
Proof.
  intros E. unfold after_activation, below_max_depth. now rewrite E.
Qed.

Section FactoryMode.

Hypothesis factory_mode : FactoryRespectsMode collab.

Lemma mode_replacement (b : bool) (l : Leaf_t) :
  mode (replacement b l) = mode_of b.
Proof. unfold replacement, decrement_depth. simpl. apply factory_mode. Qed.

Lemma after_deactivation_inactive (l : Leaf_t) :
  LeafMode_eqb (mode (after_deactivation l)) ActiveLeaf = false.
Proof.
  unfold after_deactivation.
  destruct (LeafMode_eqb (mode l) ActiveLeaf) eqn:E; [|exact E].
  now rewrite mode_replacement.
Qed.

Lemma after_activation_settled (t : Tree_t) (l : Leaf_t) :
  LeafMode_eqb (mode (after_activation t l)) InactiveLeaf
  && below_max_depth t (depth (after_activation t l)) = false.
Proof.
  unfold after_activation.
  destruct (LeafMode_eqb (mode l) InactiveLeaf
            && below_max_depth t (depth l)) eqn:E; [|exact E].
  now rewrite mode_replacement.
Qed.

(** The counters stay in agreement with the tree. *)
Lemma deactivate_if_active_counters (t : Tree_t) (f : Found_t) :
  counters_agree t -> In f (find_learning_nodes t) ->
  counters_agree (deactivate_if_active t f).
Proof.
  intros [Ha Hi] Hin. unfold deactivate_if_active. simpl.
  destruct (LeafMode_eqb (mode (node f)) ActiveLeaf) eqn:E;
    [| now split].
  pose proof (NoDup_slots t) as Hnd.
  pose proof (@count_mode_refresh ActiveLeaf f (replacement false (node f))
                _ Hin Hnd) as Ca.
  pose proof (@count_mode_refresh InactiveLeaf f (replacement false (node f))
                _ Hin Hnd) as Ci.
  rewrite mode_replacement in Ca, Ci. rewrite E in Ca.
  assert (E' : LeafMode_eqb (mode (node f)) InactiveLeaf = false)
    by (destruct (mode (node f)); [reflexivity | discriminate]).
  rewrite E' in Ci. simpl in Ca, Ci.
  unfold counters_agree, active_leaves, inactive_leaves.
  rewrite find_deactivate_leaf by assumption.
  destruct (deactivate_leaf_rebuild (node f) (parent f) (parent_branch f) t)
    as [r Er].
  rewrite Er. cbn [n_active_leaves n_inactive_leaves rebuild set_leaf_counts].
  unfold active_leaves in Ha. unfold inactive_leaves in Hi.
  split; lia.
Qed.

Lemma activate_if_inactive_counters (t : Tree_t) (f : Found_t) :
  counters_agree t -> In f (find_learning_nodes t) ->
  counters_agree (activate_if_inactive t f).
Proof.
  intros [Ha Hi] Hin. unfold activate_if_inactive. simpl.
  destruct (LeafMode_eqb (mode (node f)) InactiveLeaf) eqn:E;
    [| now split].
  destruct (below_max_depth t (depth (node f))); [| now split].
  simpl.
  pose proof (NoDup_slots t) as Hnd.
  pose proof (@count_mode_refresh ActiveLeaf f (replacement true (node f))
                _ Hin Hnd) as Ca.
  pose proof (@count_mode_refresh InactiveLeaf f (replacement true (node f))
                _ Hin Hnd) as Ci.
  rewrite mode_replacement in Ca, Ci. rewrite E in Ci.
  assert (E' : LeafMode_eqb (mode (node f)) ActiveLeaf = false)
    by (destruct (mode (node f)); [discriminate | reflexivity]).
  rewrite E' in Ca. simpl in Ca, Ci.
  unfold counters_agree, active_leaves, inactive_leaves.
  rewrite find_activate_leaf by assumption.
  destruct (activate_leaf_rebuild (node f) (parent f) (parent_branch f) t)
    as [r Er].
  rewrite Er. cbn [n_active_leaves n_inactive_leaves rebuild set_leaf_counts].
  unfold active_leaves in Ha. unfold inactive_leaves in Hi.
  split; lia.
Qed.

End FactoryMode.

(** *** The two loops of [_enforce_size_limit] *)

Lemma NoDup_app_disjoint {A : Type} (l l' : list A) :
  NoDup (l ++ l') -> forall x, In x l -> ~ In x l'.
Proof.
  induction l as [| a l IH]; intros Hnd x Hx; [destruct Hx|].
  simpl in Hnd. inversion Hnd as [| ? ? Hnotin Hnd']; subst.
  destruct Hx as [-> | Hx].
  - intros Hx'. apply Hnotin. apply in_or_app. now right.
  - now apply IH.
Qed.

(** The sorted list, cut at [cutoff]: both parts are made of found nodes
    of the tree, at distinct slots. *)
Lemma cut_sorted (t : Tree_t) (cutoff : nat) :
  let sl := sort_by_promise (find_learning_nodes t) in
  let ps1 := firstn cutoff sl in
  let ps2 := skipn cutoff sl in
  Permutation (ps1 ++ ps2) (find_learning_nodes t)
  /\ NoDup (map slot ps1) /\ NoDup (map slot ps2)
  /\ (forall g, In g ps1 -> ~ In (slot g) (map slot ps2))
  /\ (forall g, In g ps2 -> ~ In (slot g) (map slot ps1)).
Proof.
  intros sl ps1 ps2.
  assert (Hperm : Permutation (ps1 ++ ps2) (find_learning_nodes t)).
  { unfold ps1, ps2. rewrite firstn_skipn. apply sort_by_promise_perm. }
  assert (Hnd : NoDup (map slot ps1 ++ map slot ps2)).
  { rewrite <- map_app.
    apply (Permutation_NoDup (Permutation_map slot (Permutation_sym Hperm))).
    apply NoDup_slots. }
  split; [exact Hperm|].
  split; [exact (NoDup_app_remove_r _ _ Hnd)|].
  split; [exact (NoDup_app_remove_l _ _ Hnd)|].
  split.
  - intros g Hg. apply (NoDup_app_disjoint _ _ Hnd). now apply in_map.
  - intros g Hg Hin. apply (NoDup_app_disjoint _ _ Hnd _ Hin). now apply in_map.
Qed.

Lemma fold_max_depth (step : Tree_t -> Found_t -> Tree_t) :
  (forall t f, exists r a b, step t f = rebuild r a b t) ->
  forall ps t, max_depth (fold_left step ps t) = max_depth t.
Proof.
  intros Hstep ps t. destruct (fold_rebuild step Hstep ps t) as [r [a [b E]]].
  now rewrite E.
Qed.

(** What [find_learning_nodes] returns once the two loops have run, with
    any property [P] of the state that both loop bodies keep. *)
Lemma enforce_activation_loops (P : Tree_t -> Prop) (t : Tree_t) :
  (forall t f, P t -> In f (find_learning_nodes t) ->
               P (deactivate_if_active t f)) ->
  (forall t f, P t -> In f (find_learning_nodes t) ->
               P (activate_if_inactive t f)) ->
  P t ->
  let sl := sort_by_promise (find_learning_nodes t) in
  let cutoff := (length sl - max_active_scan t (length sl))%nat in
  find_learning_nodes (enforce_activation t)
  = map (retag (after_activation t) (skipn cutoff sl))
      (map (retag after_deactivation (firstn cutoff sl))
         (find_learning_nodes t))
  /\ P (enforce_activation t).
Proof.
  intros HPd HPa HP sl cutoff.
  destruct (cut_sorted t cutoff) as [Hperm [Hnd1 [Hnd2 [_ H21]]]].
  fold sl in Hperm, Hnd1, Hnd2, H21.
  unfold enforce_activation. fold sl. fold cutoff.
  set (t1 := fold_left deactivate_if_active (firstn cutoff sl) t).
  assert (H1 : find_learning_nodes t1
               = map (retag after_deactivation (firstn cutoff sl))
                   (find_learning_nodes t)
               /\ P t1).
  { apply (@loop_find deactivate_if_active after_deactivation P).
    - intros t' f _. apply find_deactivate_if_active.
    - exact HPd.
    - exact HP.
    - assumption.
    - intros g Hg. apply (Permutation_in _ Hperm). apply in_or_app. now left. }
  destruct H1 as [H1 HP1].
  assert (Hmd : max_depth t1 = max_depth t).
  { apply fold_max_depth. apply deactivate_if_active_rebuild. }
  rewrite <- H1.
  destruct (@loop_find activate_if_inactive (after_activation t)
              (fun t' => max_depth t' = max_depth t /\ P t')) with
    (ps := skipn cutoff sl) (t := t1) as [H2 [_ HP2]].
  - intros t' f [Hmd' _] Hf. rewrite find_activate_if_inactive by assumption.
    now rewrite (@after_activation_max_depth t t' (node f) Hmd').
  - intros t' f [Hmd' HP'] Hf. split; [|now apply HPa].
    destruct (activate_if_inactive_rebuild t' f) as [r [a [b E]]].
    now rewrite E.
  - now split.
  - assumption.
  - intros g Hg. rewrite H1.
    replace g with (retag after_deactivation (firstn cutoff sl) g).
    + apply in_map. apply (Permutation_in _ Hperm). apply in_or_app. now right.
    + apply retag_not_in. now apply H21.
  - now split.
Qed.

Lemma find_enforce_activation (t : Tree_t) :
  let sl := sort_by_promise (find_learning_nodes t) in
  let cutoff := (length sl - max_active_scan t (length sl))%nat in
  find_learning_nodes (enforce_activation t)
  = map (retag (after_activation t) (skipn cutoff sl))
      (map (retag after_deactivation (firstn cutoff sl))
         (find_learning_nodes t)).
Proof.
  intros sl cutoff.
  now apply (@enforce_activation_loops (fun _ => True) t).
Qed.

(** A found node of the first part ends up with its leaf deactivated, one
    of the second part with its leaf activated if it may be. *)
Lemma outcome_below_cutoff (t : Tree_t) (cutoff : nat) (g : Found_t) :
  let sl := sort_by_promise (find_learning_nodes t) in
  In g (firstn cutoff sl) ->
  retag (after_activation t) (skipn cutoff sl)
    (retag after_deactivation (firstn cutoff sl) g)
  = mkFoundNode (after_deactivation (node g)) (parent g) (parent_branch g).
Proof.
  intros sl Hg.
  destruct (cut_sorted t cutoff) as [_ [_ [_ [H12 _]]]].
  rewrite (@retag_in after_deactivation _ g Hg).
  apply retag_not_in. exact (H12 g Hg).
Qed.

Lemma outcome_above_cutoff (t : Tree_t) (cutoff : nat) (g : Found_t) :
  let sl := sort_by_promise (find_learning_nodes t) in
  In g (skipn cutoff sl) ->
  retag (after_activation t) (skipn cutoff sl)
    (retag after_deactivation (firstn cutoff sl) g)
  = mkFoundNode (after_activation t (node g)) (parent g) (parent_branch g).
Proof.
  intros sl Hg.
  destruct (cut_sorted t cutoff) as [_ [_ [_ [_ H21]]]].
  rewrite (@retag_not_in after_deactivation (firstn cutoff sl) g (H21 g Hg)).
  now apply retag_in.
Qed.

Lemma enforce_size_limit_managed (t : Tree_t) :
  stop_mem_management t = false ->
  enforce_size_limit t = enforce_activation t.
Proof.
  intros E. unfold enforce_size_limit. rewrite E. now destruct (_ || _).
Qed.

Lemma Qgtb_false (x y : Q) : Qgtb x y = false -> x <= y.
Proof.
  unfold Qgtb. intros H. apply Qle_bool_iff.
  now destruct (Qle_bool x y).
Qed.

Lemma Qgtb_true (x y : Q) : Qgtb x y = true -> y < x.
Proof.
  unfold Qgtb. intros H. apply Qnot_le_lt. intros Hle.
  apply Qle_bool_iff in Hle. rewrite Hle in H. discriminate.
Qed.

(** C4: with memory management on, after [_enforce_size_limit] at most
    [max_active] leaves are active, where [max_active] is the result of
    the scan: every count up to it fits the byte budget and the next one
    does not.  When the counters agreed with the tree before the call,
    [n_active_leaves] is bounded as well. *)
Theorem enforce_size_limit_active_bound (t : Tree_t) :
  FactoryRespectsMode collab ->
  stop_mem_management t = false ->
  let len := length (find_learning_nodes t) in
  let max_active := max_active_scan t len in
  (active_leaves (enforce_size_limit t) <= max_active)%nat
  /\ (counters_agree t ->
      (n_active_leaves (enforce_size_limit t) <= Z.of_nat max_active)%Z)
  /\ (max_active <= len)%nat
  /\ (forall k, (0 < k <= max_active)%nat ->
                projected_size t len k <= inject_Z (max_byte_size t))
  /\ ((max_active < len)%nat ->
      inject_Z (max_byte_size t) < projected_size t len (S max_active)).
Proof.
  intros Hmode Hstop len max_active.
  rewrite (enforce_size_limit_managed t Hstop).
  pose proof (max_active_scan_le t len) as Hle. fold max_active in Hle.
  assert (Hbound : (active_leaves (enforce_activation t) <= max_active)%nat).
  { unfold active_leaves. rewrite find_enforce_activation.
    rewrite sort_by_promise_length. fold len. fold max_active.
    set (cutoff := (len - max_active)%nat).
    destruct (cut_sorted t cutoff) as [Hperm _].
    rewrite map_map.
    rewrite <- (count_mode_perm ActiveLeaf (Permutation_map _ Hperm)).
    rewrite map_app, count_mode_app.
    rewrite count_mode_none.
    - simpl. etransitivity; [apply count_mode_le_length|].
      rewrite length_map, length_skipn.
      rewrite sort_by_promise_length. fold len. unfold cutoff. lia.
    - intros g' Hg'. apply in_map_iff in Hg'. destruct Hg' as [g [<- Hg]].
      rewrite (outcome_below_cutoff t cutoff g Hg). simpl.
      now apply after_deactivation_inactive. }
  split; [exact Hbound|].
  split.
  { intros Hagree.
    destruct (@enforce_activation_loops counters_agree t) as [_ [Ha _]].
    - intros t' f. now apply deactivate_if_active_counters.
    - intros t' f. now apply activate_if_inactive_counters.
    - exact Hagree.
    - rewrite Ha. lia. }
  split; [exact Hle|].
  destruct (@max_active_loop_spec t len len O) as [Hfit Hnext]; [lia | lia |].
  split.
  - intros k Hk. apply Qgtb_false, Hfit. exact Hk.
  - intros Hlt. apply Qgtb_true, Hnext. exact Hlt.
Qed.

(** C9: an inactive leaf whose depth has reached [max_depth] is still
    there, inactive, at the same place after [_enforce_size_limit]. *)
Theorem enforce_size_limit_keeps_deep_inactive (t : Tree_t) (f : Found_t)
        (m : Z) :
  In f (find_learning_nodes t) ->
  mode (node f) = InactiveLeaf ->
  max_depth t = Some m ->
  (m <= depth (node f))%Z ->
  In f (find_learning_nodes (enforce_size_limit t))
  /\ isinstance_InactiveLeaf (ObjNode (@Leaf Stats SplitTest (node f))) = true.
Proof.
  intros Hin Hmode Hmax Hdepth.
  split; [| simpl; now rewrite Hmode].
  assert (Hd : after_deactivation (node f) = node f).
  { unfold after_deactivation. now rewrite Hmode. }
  assert (Ha : after_activation t (node f) = node f).
  { unfold after_activation, below_max_depth. rewrite Hmax.
    replace (depth (node f) <? m)%Z with false
      by (symmetry; apply Z.ltb_ge; exact Hdepth).
    now rewrite andb_false_r. }
  assert (Hact : In f (find_learning_nodes (enforce_activation t))).
  { rewrite find_enforce_activation.
    set (ps1 := firstn _ _). set (ps2 := skipn _ _).
    assert (E : retag (after_activation t) ps2
                  (retag after_deactivation ps1 f) = f).
    { unfold retag at 2.
      destruct (existsb _ ps1); rewrite ?Hd, ?found_eta;
        unfold retag;
        destruct (existsb _ ps2); rewrite ?Ha, ?found_eta;
        reflexivity. }
    rewrite <- E at 1. apply in_map, in_map. exact Hin. }
  unfold enforce_size_limit.
  destruct (_ || _); [| exact Hact].
  destruct (stop_mem_management t); [exact Hin | exact Hact].
Qed.

(** With [stop_mem_management] set, and the test of the first [if] true
    (the counter of inactive leaves above 0, or [tree_size] as the first
    statement computes it above the budget), [_enforce_size_limit] only
    clears [_growth_allowed]: the root, hence every leaf and its mode, and
    the three node counters are as before. *)
Lemma enforce_size_limit_stops (t : Tree_t) :
  stop_mem_management t = true ->
  (0 < n_inactive_leaves t)%Z \/ inject_Z (max_byte_size t) < tree_size t ->
  enforce_size_limit t = set_growth_allowed false t
  /\ growth_allowed (enforce_size_limit t) = false
  /\ tree_root (enforce_size_limit t) = tree_root t
  /\ find_learning_nodes (enforce_size_limit t) = find_learning_nodes t
  /\ n_active_leaves (enforce_size_limit t) = n_active_leaves t
  /\ n_inactive_leaves (enforce_size_limit t) = n_inactive_leaves t
  /\ n_decision_nodes (enforce_size_limit t) = n_decision_nodes t.
Proof.
  intros Hstop Hover.
  assert (E : enforce_size_limit t = set_growth_allowed false t).
  { unfold enforce_size_limit. rewrite Hstop.
    replace ((0 <? n_inactive_leaves t)%Z
             || Qgtb (tree_size t) (inject_Z (max_byte_size t))) with true;
      [reflexivity|].
    symmetry. apply orb_true_iff. destruct Hover as [Hn | Hq].
    - left. now apply Z.ltb_lt.
    - right. unfold Qgtb.
      destruct (Qle_bool (tree_size t) (inject_Z (max_byte_size t))) eqn:Q;
        [|reflexivity].
      apply Qle_bool_iff in Q. exfalso. exact (Qlt_not_le _ _ Hq Q). }
  rewrite E. repeat split.
Qed.

(** *** Sequences of transitions *)

Lemma apply_transition_sum (t : Tree_t) (tr : Transition Stats) :
  (n_active_leaves (apply_transition t tr)
   + n_inactive_leaves (apply_transition t tr)
   = n_active_leaves t + n_inactive_leaves t)%Z.
Proof.
  destruct tr as [f | f]; unfold apply_transition.
  - destruct (activate_leaf_rebuild (node f) (parent f) (parent_branch f) t)
      as [r E]. rewrite E. simpl. lia.
  - destruct (deactivate_leaf_rebuild (node f) (parent f) (parent_branch f) t)
      as [r E]. rewrite E. simpl. lia.
Qed.

Lemma apply_transition_leaves (t : Tree_t) (tr : Transition Stats) :
  In (target tr) (find_learning_nodes t) ->
  length (find_learning_nodes (apply_transition t tr))
  = length (find_learning_nodes t).
Proof.
  destruct tr as [f | f]; unfold apply_transition, target; intros Hin.
  - rewrite find_activate_leaf by assumption. apply length_map.
  - rewrite find_deactivate_leaf by assumption. apply length_map.
Qed.

(** C5: along any sequence of [_activate_leaf] and [_deactivate_leaf]
    transitions the sum of the two leaf counters does not change; when
    every transition is applied to a learning node of the tree, the number
    of leaves does not change either, so a sum that was the number of
    leaves remains the number of leaves, and is never negative.  A prefix
    of a sequence being a sequence, this holds after every transition. *)
Theorem leaf_counters_sum_invariant (trs : list (Transition Stats)) :
  forall t : Tree_t,
    (n_active_leaves (run trs t) + n_inactive_leaves (run trs t)
     = n_active_leaves t + n_inactive_leaves t)%Z
    /\ (on_found_nodes trs t ->
        length (find_learning_nodes (run trs t))
        = length (find_learning_nodes t))
    /\ (on_found_nodes trs t ->
        (n_active_leaves t + n_inactive_leaves t
         = Z.of_nat (length (find_learning_nodes t)))%Z ->
        (n_active_leaves (run trs t) + n_inactive_leaves (run trs t)
         = Z.of_nat (length (find_learning_nodes (run trs t))))%Z
        /\ (0 <= n_active_leaves (run trs t)
                 + n_inactive_leaves (run trs t))%Z).
Proof.
  induction trs as [| tr trs IH]; intros t.
  - simpl. repeat split; trivial. lia.
  - destruct (IH (apply_transition t tr)) as [Hsum [Hlen Hcount]].
    pose proof (apply_transition_sum t tr) as Hstep.
    change (run (tr :: trs) t) with (run trs (apply_transition t tr)).
    split; [lia|]. split.
    + intros [Hin Hrest]. rewrite (Hlen Hrest).
      now apply apply_transition_leaves.
    + intros [Hin Hrest] Hagree.
      pose proof (apply_transition_leaves t tr Hin) as Hl.
      specialize (Hlen Hrest). split; lia.
Qed.

(** *** [_deactivate_all_leaves] *)

Lemma deactivate_all_leaves_unchanged (t : Tree_t) :
  deactivate_all_leaves t = t.
Proof.
  unfold deactivate_all_leaves.
  generalize (find_learning_nodes t) as l. intros l. revert t.
  induction l as [| f l IH]; intros t; simpl; [reflexivity | apply IH].
Qed.

(** *** [_estimate_model_size] *)

Lemma py_qdiv_raises (x y : Q) :
  y == 0 -> py_qdiv x y = Raise ZeroDivisionError.
Proof.
  intros E. unfold py_qdiv. apply Qeq_bool_iff in E. now rewrite E.
Qed.

Lemma py_qdiv_ok (x y : Q) : ~ y == 0 -> py_qdiv x y = Ok (x / y).
Proof.
  intros NE. unfold py_qdiv.
  destruct (Qeq_bool y 0) eqn:E; [|reflexivity].
  apply Qeq_bool_iff in E. contradiction.
Qed.

Lemma update_overhead_fraction_completes (t : Tree_t) :
  completes (update_overhead_fraction t) <-> ~ estimated_model_size t == 0.
Proof.
  unfold update_overhead_fraction. split.
  - intros [t' E] Hz. rewrite (py_qdiv_raises _ Hz) in E. discriminate.
  - intros NE. rewrite (py_qdiv_ok _ NE). simpl.
    destruct (_ <? _)%Z; eexists; reflexivity.
Qed.

Lemma update_overhead_fraction_raises (t : Tree_t) :
  estimated_model_size t == 0 ->
  update_overhead_fraction t = Raise ZeroDivisionError.
Proof.
  intros Hz. unfold update_overhead_fraction.
  now rewrite (py_qdiv_raises _ Hz).
Qed.

(** C10: once the two per-leaf estimates have been brought up to date
    (state [t1]), [_estimate_model_size] ends normally exactly when the
    linear estimate is not zero, and raises [ZeroDivisionError] otherwise;
    this is what happens when both per-leaf estimates are still 0 at that
    point, in particular for a tree without leaves that carries the initial
    estimates. *)
Theorem estimate_model_size_division (t t1 : Tree_t) :
  update_leaf_size_estimates t = Ok t1 ->
  (completes (estimate_model_size t) <-> ~ estimated_model_size t1 == 0)
  /\ (estimated_model_size t1 == 0 ->
      estimate_model_size t = Raise ZeroDivisionError)
  /\ (active_leaf_size_estimate t1 == 0 ->
      inactive_leaf_size_estimate t1 == 0 ->
      estimate_model_size t = Raise ZeroDivisionError)
  /\ (tree_root t = None -> t1 = t).
Proof.
  intros E. unfold estimate_model_size. rewrite E. simpl.
  split; [apply update_overhead_fraction_completes|].
  split; [apply update_overhead_fraction_raises|].
  split.
  - intros Ha Hi. apply update_overhead_fraction_raises.
    unfold estimated_model_size. rewrite Ha, Hi. ring.
  - intros Hroot. unfold update_leaf_size_estimates, find_learning_nodes in E.
    rewrite Hroot in E. simpl in E. congruence.
Qed.

(** *** A second enforcement pass *)

Lemma fold_left_unchanged {A B : Type} (step : A -> B -> A) (l : list B)
      (a : A) :
  (forall b, In b l -> step a b = a) -> fold_left step l a = a.
Proof.
  induction l as [| b l IH]; intros H; simpl; [reflexivity|].
  rewrite (H b) by now left. apply IH. intros b' Hb'. apply H. now right.
Qed.

Lemma node_retag (change : Leaf_t -> Leaf_t) (ps : list Found_t)
      (g : Found_t) :
  node (retag change ps g) = change (node g)
  \/ node (retag change ps g) = node g.
Proof.
  unfold retag. destruct (existsb _ ps); [now left | now right].
Qed.

Section SecondPass.

Hypothesis factory_mode : FactoryRespectsMode collab.
Hypothesis factory_promise : FactoryKeepsPromise collab.

Lemma promise_after_deactivation (l : Leaf_t) :
  calculate_promise (after_deactivation l) = calculate_promise l.
Proof.
  unfold after_deactivation. destruct (LeafMode_eqb _ _); [|reflexivity].
  apply factory_promise.
Qed.

Lemma promise_after_activation (t : Tree_t) (l : Leaf_t) :
  calculate_promise (after_activation t l) = calculate_promise l.
Proof.
  unfold after_activation. destruct (_ && _); [|reflexivity].
  apply factory_promise.
Qed.

Lemma promise_outcome (t : Tree_t) (ps1 ps2 : list Found_t) (g : Found_t) :
  calculate_promise
    (node (retag (after_activation t) ps2 (retag after_deactivation ps1 g)))
  = calculate_promise (node g).
Proof.
  destruct (node_retag (after_activation t) ps2
              (retag after_deactivation ps1 g)) as [-> | ->].
  - rewrite promise_after_activation.
    destruct (node_retag after_deactivation ps1 g) as [-> | ->];
      [apply promise_after_deactivation | reflexivity].
  - destruct (node_retag after_deactivation ps1 g) as [-> | ->];
      [apply promise_after_deactivation | reflexivity].
Qed.

(** The two loops find nothing left to do in a tree they have just been
    through. *)
Lemma enforce_activation_idempotent (t : Tree_t) :
  enforce_activation (enforce_activation t) = enforce_activation t.
Proof.
  set (t1 := enforce_activation t).
  destruct (enforce_activation_rebuild t) as [r [a [b Et1]]]. fold t1 in Et1.
  pose proof (find_enforce_activation t) as Hfind. cbv zeta in Hfind.
  fold t1 in Hfind. rewrite map_map in Hfind.
  set (sl := sort_by_promise (find_learning_nodes t)) in *.
  set (cutoff := (length sl - max_active_scan t (length sl))%nat) in *.
  set (ps1 := firstn cutoff sl) in *.
  set (ps2 := skipn cutoff sl) in *.
  set (h := fun g => retag (after_activation t) ps2
                       (retag after_deactivation ps1 g)) in *.
  assert (Hsort : sort_by_promise (find_learning_nodes t1) = map h sl).
  { rewrite Hfind. apply sort_by_promise_map.
    intros g _. apply promise_outcome. }
  assert (Hcut : (length (map h sl)
                  - max_active_scan t1 (length (map h sl)))%nat = cutoff).
  { rewrite length_map. unfold cutoff, max_active_scan.
    rewrite Et1, max_active_loop_rebuild. reflexivity. }
  unfold enforce_activation at 1. rewrite Hsort, Hcut.
  rewrite firstn_map, skipn_map. fold ps1. fold ps2.
  rewrite (@fold_left_unchanged _ _ deactivate_if_active (map h ps1) t1).
  - apply fold_left_unchanged. intros e He.
    apply in_map_iff in He. destruct He as [g [<- Hg]].
    unfold h. unfold ps1, ps2, sl.
    rewrite (outcome_above_cutoff t cutoff g Hg).
    unfold activate_if_inactive. cbn [isinstance_InactiveLeaf node].
    replace (below_max_depth t1 (depth (after_activation t (node g))))
      with (below_max_depth t (depth (after_activation t (node g))))
      by (unfold below_max_depth; now rewrite Et1).
    now rewrite after_activation_settled.
  - intros e He.
    apply in_map_iff in He. destruct He as [g [<- Hg]].
    unfold h. unfold ps1, ps2, sl.
    rewrite (outcome_below_cutoff t cutoff g Hg).
    unfold deactivate_if_active. cbn [isinstance_ActiveLeaf node].
    now rewrite after_deactivation_inactive.
Qed.

(** C6, amended: when the leaf factory returns leaves of the mode asked for
    and with the promise of the leaf they replace, a second call of
    [_enforce_size_limit] right after a first one changes no node, no mode
    and no counter.  With [stop_mem_management] off the state after the
    second call is the state after the first.  With [stop_mem_management]
    on, the second call sets [_growth_allowed] to false exactly when, after
    the first call, [n_inactive_leaves > 0] or the computed [tree_size]
    exceeds the byte budget, and changes nothing else. *)
Theorem enforce_size_limit_twice (t : Tree_t) :
  let t1 := enforce_size_limit t in
  let t2 := enforce_size_limit t1 in
  (stop_mem_management t = false -> t2 = t1)
  /\ (stop_mem_management t = true ->
      t2 = if over_limit t1 then set_growth_allowed false t1 else t1)
  /\ tree_root t2 = tree_root t1
  /\ find_learning_nodes t2 = find_learning_nodes t1
  /\ n_active_leaves t2 = n_active_leaves t1
  /\ n_inactive_leaves t2 = n_inactive_leaves t1
  /\ n_decision_nodes t2 = n_decision_nodes t1.
Proof.
  intros t1 t2.
  assert (Hoff : stop_mem_management t = false -> t2 = t1).
  { intros Hstop. unfold t2, t1.
    rewrite (enforce_size_limit_managed t Hstop).
    rewrite enforce_size_limit_managed.
    - apply enforce_activation_idempotent.
    - destruct (enforce_activation_rebuild t) as [r [a [b E]]].
      now rewrite E. }
  assert (Hon : stop_mem_management t = true ->
                t2 = if over_limit t1 then set_growth_allowed false t1
                     else t1).
  { intros Hstop. unfold t2, t1.
    destruct (over_limit t) eqn:C.
    - assert (E1 : enforce_size_limit t = set_growth_allowed false t).
      { unfold enforce_size_limit. fold (over_limit t). now rewrite C, Hstop. }
      rewrite E1.
      change (over_limit (set_growth_allowed false t)) with (over_limit t).
      rewrite C. unfold enforce_size_limit.
      fold (over_limit (set_growth_allowed false t)).
      change (over_limit (set_growth_allowed false t)) with (over_limit t).
      rewrite C. cbn [stop_mem_management set_growth_allowed].
      now rewrite Hstop.
    - assert (E1 : enforce_size_limit t = enforce_activation t).
      { unfold enforce_size_limit. fold (over_limit t). now rewrite C. }
      rewrite E1.
      assert (Hstop1 : stop_mem_management (enforce_activation t) = true).
      { destruct (enforce_activation_rebuild t) as [r [a [b E]]].
        rewrite E. exact Hstop. }
      unfold enforce_size_limit at 1.
      fold (over_limit (enforce_activation t)).
      destruct (over_limit (enforce_activation t)).
      + now rewrite Hstop1.
      + apply enforce_activation_idempotent. }
  split; [exact Hoff|]. split; [exact Hon|].
  destruct (stop_mem_management t).
  - rewrite (Hon eq_refl). destruct (over_limit t1); repeat split.
  - rewrite (Hoff eq_refl). repeat split.
Qed.

End SecondPass.

End EngineProperties.

(** ** The concrete variant *)

Lemma demo_factory_mode : FactoryRespectsMode demo_collaborators.
Proof. intros s p is_active. reflexivity. Qed.

Lemma demo_factory_promise : FactoryKeepsPromise demo_collaborators.
Proof. intros l is_active. reflexivity. Qed.

Example two_active_scan :
  max_active_scan two_active 2 = 1%nat
  /\ active_leaves (enforce_size_limit two_active) = 1%nat
  /\ n_active_leaves (enforce_size_limit two_active) = 1%Z.
Proof. vm_compute. repeat split. Qed.

(** C1: on a tree whose root is an active leaf, [_deactivate_all_leaves]
    changes nothing: the leaf is still active and still counted as such. *)
Theorem deactivate_all_leaves_single_leaf :
  active_leaves single_leaf = 1%nat
  /\ deactivate_all_leaves single_leaf = single_leaf
  /\ active_leaves (deactivate_all_leaves single_leaf) = 1%nat
  /\ n_active_leaves (deactivate_all_leaves single_leaf) = 1%Z.
Proof.
  rewrite deactivate_all_leaves_unchanged. repeat split.
Qed.

(** C2: for two active leaves of 600000 bytes each, the size computed by
    [_enforce_size_limit] is 600000, not 1200000: the active estimate is
    not multiplied by the number of active leaves, and the tree passes for
    being within the budget of one megabyte. *)
Theorem tree_size_two_active :
  tree_size two_active == 600000
  /\ spec_tree_size two_active == 1200000
  /\ ~ tree_size two_active == spec_tree_size two_active
  /\ Qgtb (tree_size two_active) (inject_Z (max_byte_size two_active)) = false
  /\ Qgtb (spec_tree_size two_active) (inject_Z (max_byte_size two_active))
     = true.
Proof.
  repeat split; try reflexivity. intros E. vm_compute in E. discriminate.
Qed.

Lemma enforce_size_limit_active_bound_witness :
  FactoryRespectsMode demo_collaborators
  /\ stop_mem_management two_active = false
  /\ (active_leaves (enforce_size_limit two_active)
      <= max_active_scan two_active 2)%nat.
Proof.
  split; [exact demo_factory_mode|]. split; [reflexivity|].
  exact (proj1 (@enforce_size_limit_active_bound Z unit demo_collaborators
                  two_active demo_factory_mode eq_refl)).
Defined.

Lemma enforce_size_limit_keeps_deep_inactive_witness :
  let f := mkFoundNode (mkLearningNode 7%Z 1%Z InactiveLeaf) (Some []) 1%Z in
  In f (find_learning_nodes (enforce_size_limit deep_inactive))
  /\ isinstance_InactiveLeaf (ObjNode (@Leaf Z unit (node f))) = true.
Proof.
  intros f.
  apply (@enforce_size_limit_keeps_deep_inactive Z unit demo_collaborators
           deep_inactive f 1%Z).
  - right. left. reflexivity.
  - reflexivity.
  - reflexivity.
  - simpl. lia.
Defined.

(** C6, as stated, does not hold: the first call deactivates both leaves
    of this tree, and the second call, finding inactive leaves, clears
    [_growth_allowed]. *)
Lemma enforce_size_limit_not_idempotent :
  FactoryRespectsMode demo_collaborators
  /\ FactoryKeepsPromise demo_collaborators
  /\ growth_allowed (enforce_size_limit stale_estimate) = true
  /\ growth_allowed (enforce_size_limit (enforce_size_limit stale_estimate))
     = false
  /\ enforce_size_limit (enforce_size_limit stale_estimate)
     <> enforce_size_limit stale_estimate.
Proof.
  split; [exact demo_factory_mode|]. split; [exact demo_factory_promise|].
  split; [reflexivity|]. split; [reflexivity|].
  intros E. apply (f_equal (@growth_allowed Z unit)) in E.
  vm_compute in E. discriminate.
Qed.

Lemma enforce_size_limit_twice_witness :
  FactoryRespectsMode demo_collaborators
  /\ FactoryKeepsPromise demo_collaborators
  /\ stop_mem_management stale_estimate = true
  /\ enforce_size_limit (enforce_size_limit stale_estimate)
     = set_growth_allowed false (enforce_size_limit stale_estimate)
  /\ stop_mem_management two_active = false
  /\ enforce_size_limit (enforce_size_limit two_active)
     = enforce_size_limit two_active.
Proof.
  split; [exact demo_factory_mode|]. split; [exact demo_factory_promise|].
  split; [reflexivity|]. split; [| split; [reflexivity|]].
  - exact (proj1 (proj2
      (@enforce_size_limit_twice Z unit demo_collaborators demo_factory_mode
         demo_factory_promise stale_estimate)) eq_refl).
  - exact (proj1
      (@enforce_size_limit_twice Z unit demo_collaborators demo_factory_mode
         demo_factory_promise two_active) eq_refl).
Defined.

(** C8: two active leaves of 600000 bytes each against a budget of one
    megabyte, with [stop_mem_management] set.  The estimated size,
    1200000, exceeds the budget, but [tree_size] is computed as 600000, so
    the call does not stop: it runs the scan, deactivates the leaf of lower
    promise and leaves [_growth_allowed] true. *)
Theorem enforce_size_limit_misses_stop :
  stop_mem_management two_active_stop = true
  /\ Qgtb (spec_tree_size two_active_stop)
          (inject_Z (max_byte_size two_active_stop)) = true
  /\ over_limit two_active_stop = false
  /\ growth_allowed (enforce_size_limit two_active_stop) = true
  /\ active_leaves two_active_stop = 2%nat
  /\ active_leaves (enforce_size_limit two_active_stop) = 1%nat
  /\ n_active_leaves (enforce_size_limit two_active_stop) = 1%Z
  /\ n_inactive_leaves (enforce_size_limit two_active_stop) = 1%Z
  /\ enforce_size_limit two_active_stop
     <> set_growth_allowed false two_active_stop.
Proof.
  repeat split; try reflexivity.
  intros E. apply (f_equal (@growth_allowed Z unit)) in E.
  vm_compute in E. discriminate.
Qed.

Lemma enforce_size_limit_stops_witness :
  stop_mem_management over_budget = true
  /\ (0 < n_inactive_leaves over_budget)%Z
  /\ enforce_size_limit over_budget = set_growth_allowed false over_budget.
Proof.
  split; [reflexivity|]. split; [reflexivity|].
  apply (@enforce_size_limit_stops Z unit demo_collaborators over_budget).
  - reflexivity.
  - left. reflexivity.
Defined.

Lemma leaf_counters_sum_invariant_witness :
  let f := mkFoundNode (mkLearningNode 5%Z 0%Z ActiveLeaf) None (-1)%Z in
  let trs := [Deactivate f] in
  on_found_nodes trs single_leaf
  /\ (n_active_leaves (run trs single_leaf)
      + n_inactive_leaves (run trs single_leaf)
      = Z.of_nat (length (find_learning_nodes (run trs single_leaf))))%Z.
Proof.
  intros f trs.
  assert (Hon : on_found_nodes trs single_leaf).
  { split; [left; reflexivity | exact I]. }
  split; [exact Hon|].
  apply (@leaf_counters_sum_invariant Z unit demo_collaborators trs
           single_leaf); [exact Hon | reflexivity].
Defined.

Lemma estimate_model_size_division_witness :
  let t := @init Z unit None false 100 1000000 false false true in
  update_leaf_size_estimates t = Ok t
  /\ estimate_model_size t = Raise ZeroDivisionError.
Proof.
  intros t. split; [reflexivity|].
  apply (@estimate_model_size_division Z unit demo_collaborators t t);
    reflexivity.
Defined.

(** * Further properties *)

(** ** The Hoeffding bound, continued *)

Section HoeffdingBoundMore.

Variable libm_log : float -> float.

Lemma mul_opp_opp (x : float) : (- x * - x = x * x)%float.
Proof.
  apply Prim2SF_inj. rewrite !mul_spec, !opp_spec.
  destruct (Prim2SF x) as [s | s | | s m e];
    try reflexivity; destruct s; reflexivity.
Qed.

(** X1: the call does not depend on the sign of [range_val]: the result,
    value or exception, is the same for [- range_val] as for [range_val],
    for every confidence and every [n]. *)
Theorem hoeffding_bound_even (range_val confidence : float) (n : Z) :
  hoeffding_bound libm_log (- range_val) confidence n
  = hoeffding_bound libm_log range_val confidence n.
Proof.
  unfold hoeffding_bound. now rewrite mul_opp_opp.
Qed.

End HoeffdingBoundMore.

(** ** The tree engine, continued *)

Section EngineMore.

Variable Stats : Type.
Variable SplitTest : Type.
Context {collab : Collaborators Stats SplitTest}.

Notation Leaf_t := (LearningNode Stats).
Notation Node_t := (Node Stats SplitTest).
Notation Found_t := (FoundNode Stats).
Notation Tree_t := (DecisionTree Stats SplitTest).

(** *** What [_find_learning_nodes] finds *)

Lemma in_number_children_iff (cs : list Node_t) :
  forall k l p,
    In (l, p) (number_children k (map leaf_slots cs)) <->
    exists i q c,
      p = (k + i)%nat :: q /\ nth_error cs i = Some c
      /\ In (l, q) (leaf_slots c).
Proof.
  induction cs as [| c cs IH]; intros k l p; simpl.
  - split; [intros [] | intros [[| i] [q [c [_ [E _]]]]]; discriminate].
  - rewrite in_app_iff, IH. split.
    + intros [Hin | [i [q [c' [-> [Hn Hin]]]]]].
      * apply in_map_iff in Hin. destruct Hin as [[l0 q] [E Hin]].
        unfold push_branch in E. simpl in E. inversion E; subst.
        exists O, q, c. rewrite Nat.add_0_r. now repeat split.
      * exists (S i), q, c'. repeat split; [f_equal; lia | assumption..].
    + intros [[| i] [q [c' [-> [Hn Hin]]]]]; simpl in Hn.
      * inversion Hn; subst c'. left. rewrite Nat.add_0_r.
        apply in_map_iff. now exists (l, q).
      * right. exists i, q, c'. repeat split; [f_equal; lia | assumption..].
Qed.

(** The leaf positions are the positions at which [get_child] reaches a
    learning node. *)
Lemma leaf_slots_subtree_at (n : Node_t) :
  forall p l, In (l, p) (leaf_slots n) <-> subtree_at n p = Some (Leaf l).
Proof.
  induction n as [l0 | test st d cs IH] using Node_ind_children;
    intros p l.
  - simpl. split.
    + intros [E | []]. now inversion E.
    + destruct p as [| i p]; simpl; [|discriminate].
      intros E. inversion E. now left.
  - simpl leaf_slots. rewrite in_number_children_iff. split.
    + intros [i [q [c [-> [Hn Hin]]]]]. simpl. unfold get_child. rewrite Hn.
      rewrite Forall_forall in IH.
      apply (IH c (nth_error_In _ _ Hn)). exact Hin.
    + destruct p as [| i q]; simpl; [discriminate|].
      unfold get_child. destruct (nth_error cs i) as [c |] eqn:Hn;
        [|discriminate].
      intros Hsub. exists i, q, c. repeat split; [assumption|].
      rewrite Forall_forall in IH.
      apply (IH c (nth_error_In _ _ Hn)). exact Hsub.
Qed.

Lemma subtree_at_snoc (q : NodeRef) :
  forall (n m : Node_t) (b : nat),
    subtree_at n (q ++ [b]) = Some m ->
    exists test st d cs,
      subtree_at n q = Some (Split test st d cs)
      /\ get_child cs b = Some m.
Proof.
  induction q as [| i q IH]; intros n m b; simpl.
  - destruct n as [l | test st d cs]; [discriminate|].
    destruct (get_child cs b) as [c |] eqn:E; [|discriminate].
    intros H. inversion H; subst. now exists test, st, d, cs.
  - destruct n as [l | test st d cs]; [discriminate|].
    destruct (get_child cs i) as [c |]; [|discriminate].
    apply IH.
Qed.

(** X5: every found node is a learning node of the tree: [get_child]
    along its reference reaches it; a found node without parent is the
    root itself, with branch [-1], and the parent of any other one is a
    split node that holds the learning node at [parent_branch]. *)
Theorem find_learning_nodes_sound (t : Tree_t) (f : Found_t) :
  In f (find_learning_nodes t) ->
  exists root,
    tree_root t = Some root
    /\ subtree_at root (slot f) = Some (Leaf (node f))
    /\ match parent f with
       | None => parent_branch f = (-1)%Z /\ root = Leaf (node f)
       | Some ref =>
           (0 <= parent_branch f)%Z
           /\ exists test st d cs,
               subtree_at root ref = Some (Split test st d cs)
               /\ get_child cs (Z.to_nat (parent_branch f))
                  = Some (Leaf (node f))
       end.
Proof.
  intros Hin.
  destruct (in_find_learning_nodes _ _ Hin) as [root [[l p] [Er [Hlp ->]]]].
  exists root. split; [exact Er|].
  apply leaf_slots_subtree_at in Hlp.
  rewrite slot_found_at_root, node_found_at. simpl fst. simpl snd.
  split; [exact Hlp|].
  destruct p as [| i q].
  - simpl. split; [reflexivity|]. simpl in Hlp. congruence.
  - unfold found_at. cbn [snd parent parent_branch].
    change (slot_ref None (-1)) with (@nil nat). rewrite app_nil_l.
    split; [lia|]. rewrite Nat2Z.id.
    apply subtree_at_snoc.
    now rewrite <- app_removelast_last by discriminate.
Qed.

(** X6: [_find_learning_nodes] misses no learning node and finds none
    twice: every position at which [get_child] reaches a learning node is
    the reference of a found node, the references of the found nodes are
    pairwise distinct, and nothing is found in a tree without root. *)
Theorem find_learning_nodes_complete (t : Tree_t) :
  (tree_root t = None -> find_learning_nodes t = [])
  /\ NoDup (map slot (find_learning_nodes t))
  /\ (forall root p l,
        tree_root t = Some root ->
        subtree_at root p = Some (Leaf l) ->
        exists f, In f (find_learning_nodes t) /\ slot f = p /\ node f = l).
Proof.
  split; [| split].
  - intros E. unfold find_learning_nodes. now rewrite E.
  - apply NoDup_slots.
  - intros root p l Er Hsub.
    apply leaf_slots_subtree_at in Hsub.
    exists (found_at None (-1) (l, p)).
    rewrite (find_learning_nodes_root _ Er).
    split; [now apply in_map|].
    now rewrite slot_found_at_root, node_found_at.
Qed.

(** *** One transition *)

Lemma apply_transition_find (t : Tree_t) (tr : Transition Stats) :
  In (target tr) (find_learning_nodes t) ->
  find_learning_nodes (apply_transition t tr)
  = map (refresh (slot (target tr))
           (replacement (activates tr) (node (target tr))))
      (find_learning_nodes t).
Proof.
  destruct tr as [f | f]; unfold apply_transition, target, activates.
  - apply find_activate_leaf.
  - apply find_deactivate_leaf.
Qed.

Lemma map_slot_refresh (p : NodeRef) (new : Leaf_t) (l : list Found_t) :
  map slot (map (refresh p new) l) = map slot l.
Proof.
  rewrite map_map. apply map_ext. intros g. apply slot_refresh.
Qed.

Lemma in_refresh_same (f : Found_t) (new : Leaf_t) (l : list Found_t) :
  In f l ->
  In (mkFoundNode new (parent f) (parent_branch f))
     (map (refresh (slot f) new) l).
Proof.
  intros Hin. apply in_map_iff. exists f. split; [|assumption].
  unfold refresh. now rewrite NodeRef_eqb_refl.
Qed.

Lemma in_refresh_other (p : NodeRef) (new : Leaf_t) (g : Found_t)
      (l : list Found_t) :
  slot g <> p -> (In g (map (refresh p new) l) <-> In g l).
Proof.
  intros Hne. rewrite in_map_iff. split.
  - intros [g0 [E Hin]]. unfold refresh in E.
    destruct (NodeRef_eqb (slot g0) p) eqn:Eq.
    + exfalso. apply Hne. apply NodeRef_eqb_eq in Eq. now rewrite <- E.
    + now subst.
  - intros Hin. exists g. split; [|assumption].
    unfold refresh. now rewrite NodeRef_eqb_neq.
Qed.

(** X7: [_activate_leaf] and [_deactivate_leaf], called on a found node,
    replace the learning node of that found node and nothing else: the
    references of the learning nodes are the same, the new leaf is found at
    the reference of the old one, every other found node is found as
    before, and the number of decision nodes is unchanged. *)
Theorem apply_transition_replaces_one (t : Tree_t) (tr : Transition Stats) :
  In (target tr) (find_learning_nodes t) ->
  let f := target tr in
  let t' := apply_transition t tr in
  map slot (find_learning_nodes t') = map slot (find_learning_nodes t)
  /\ In (mkFoundNode (replacement (activates tr) (node f))
           (parent f) (parent_branch f))
        (find_learning_nodes t')
  /\ (forall g, slot g <> slot f ->
                (In g (find_learning_nodes t')
                 <-> In g (find_learning_nodes t)))
  /\ n_decision_nodes t' = n_decision_nodes t.
Proof.
  intros Hin f t'. unfold t'. rewrite (apply_transition_find t tr Hin).
  fold f. split; [apply map_slot_refresh|].
  split; [now apply in_refresh_same|].
  split; [intros g Hne; now apply in_refresh_other|].
  destruct tr as [g | g]; unfold apply_transition.
  - destruct (activate_leaf_rebuild (node g) (parent g) (parent_branch g) t)
      as [r E]. now rewrite E.
  - destruct (deactivate_leaf_rebuild (node g) (parent g) (parent_branch g) t)
      as [r E]. now rewrite E.
Qed.

Lemma mode_replacement_of (b : bool) (l : Leaf_t) :
  FactoryRespectsMode collab -> mode (replacement b l) = mode_of b.
Proof. intros H. now apply mode_replacement. Qed.

(** X8: deactivating a found leaf and activating the leaf put in its place
    brings both leaf counters back to their values; the leaf found at that
    reference in between is inactive and the one found there in the end is
    active, and the references of the learning nodes never change. *)
Theorem deactivate_then_activate (t : Tree_t) (f : Found_t) :
  FactoryRespectsMode collab ->
  In f (find_learning_nodes t) ->
  let t1 := deactivate_leaf (node f) (parent f) (parent_branch f) t in
  let f1 := mkFoundNode (replacement false (node f))
              (parent f) (parent_branch f) in
  let t2 := activate_leaf (node f1) (parent f1) (parent_branch f1) t1 in
  let f2 := mkFoundNode (replacement true (node f1))
              (parent f) (parent_branch f) in
  In f1 (find_learning_nodes t1) /\ mode (node f1) = InactiveLeaf
  /\ In f2 (find_learning_nodes t2) /\ mode (node f2) = ActiveLeaf
  /\ n_active_leaves t2 = n_active_leaves t
  /\ n_inactive_leaves t2 = n_inactive_leaves t
  /\ map slot (find_learning_nodes t2) = map slot (find_learning_nodes t).
Proof.
  intros Hmode Hin t1 f1 t2 f2.
  assert (H1 : find_learning_nodes t1
               = map (refresh (slot f) (replacement false (node f)))
                   (find_learning_nodes t))
    by now apply find_deactivate_leaf.
  assert (Hin1 : In f1 (find_learning_nodes t1)).
  { rewrite H1. now apply in_refresh_same. }
  assert (H2 : find_learning_nodes t2
               = map (refresh (slot f1) (replacement true (node f1)))
                   (find_learning_nodes t1))
    by now apply find_activate_leaf.
  split; [exact Hin1|].
  split; [now apply mode_replacement_of|].
  split; [rewrite H2; exact (in_refresh_same f1 _ _ Hin1)|].
  split; [now apply mode_replacement_of|].
  destruct (deactivate_leaf_rebuild (node f) (parent f) (parent_branch f) t)
    as [r E].
  destruct (activate_leaf_rebuild (node f1) (parent f1) (parent_branch f1) t1)
    as [r' E'].
  split; [| split].
  - unfold t2. rewrite E'. cbn [n_active_leaves rebuild set_leaf_counts].
    unfold t1. rewrite E. cbn [n_active_leaves rebuild set_leaf_counts]. lia.
  - unfold t2. rewrite E'. cbn [n_inactive_leaves rebuild set_leaf_counts].
    unfold t1. rewrite E. cbn [n_inactive_leaves rebuild set_leaf_counts]. lia.
  - now rewrite H2, map_slot_refresh, H1, map_slot_refresh.
Qed.

(** *** What [_enforce_size_limit] keeps *)

Lemma enforce_size_limit_shape (t : Tree_t) :
  enforce_size_limit t = set_growth_allowed false t
  \/ exists r a b, enforce_size_limit t = rebuild r a b t.
Proof.
  unfold enforce_size_limit.
  destruct (_ || _); [destruct (stop_mem_management t)|];
    (now left) || (right; apply enforce_activation_rebuild).
Qed.

Lemma enforce_size_limit_find (t : Tree_t) :
  find_learning_nodes (enforce_size_limit t) = find_learning_nodes t
  \/ find_learning_nodes (enforce_size_limit t)
     = find_learning_nodes (enforce_activation t).
Proof.
  unfold enforce_size_limit.
  destruct (_ || _); [destruct (stop_mem_management t)|];
    (now left) || (now right).
Qed.

Lemma depth_replacement (b : bool) (l : Leaf_t) :
  FactoryPlacesBelow collab -> depth (replacement b l) = depth l.
Proof.
  intros H. unfold replacement, decrement_depth. simpl. rewrite H. lia.
Qed.

Lemma retag_keeps (change : Leaf_t -> Leaf_t) (key : Leaf_t -> Z)
      (ps : list Found_t) (g : Found_t) :
  (forall l, key (change l) = key l) ->
  key (node (retag change ps g)) = key (node g).
Proof.
  intros H. destruct (node_retag change ps g) as [-> | ->];
    [apply H | reflexivity].
Qed.

(** X9: when the factory places a new leaf one level below the leaf it is
    created from, [_enforce_size_limit] keeps the depth stored at every
    reference: the decrement in the two transitions makes up for that
    level. *)
Theorem enforce_size_limit_keeps_depths (t : Tree_t) :
  FactoryPlacesBelow collab ->
  map (fun g => (slot g, depth (node g)))
    (find_learning_nodes (enforce_size_limit t))
  = map (fun g => (slot g, depth (node g))) (find_learning_nodes t).
Proof.
  intros Hbelow.
  destruct (enforce_size_limit_find t) as [-> | ->]; [reflexivity|].
  rewrite find_enforce_activation, !map_map. apply map_ext. intros g.
  rewrite !slot_retag. f_equal.
  rewrite (retag_keeps (after_activation t) (@depth Stats)).
  - apply (retag_keeps after_deactivation (@depth Stats)).
    intros l. unfold after_deactivation.
    destruct (LeafMode_eqb _ _); [now apply depth_replacement | reflexivity].
  - intros l. unfold after_activation.
    destruct (_ && _); [now apply depth_replacement | reflexivity].
Qed.

(** X10: [_enforce_size_limit] changes the root, the two leaf counters and
    [_growth_allowed], and nothing else: the configuration, the byte
    budget, the size estimates, the overhead fraction and the number of
    decision nodes are as before, the references of the learning nodes are
    the same, and [_growth_allowed] is never set back to true. *)
Theorem enforce_size_limit_frame (t : Tree_t) :
  let t' := enforce_size_limit t in
  max_depth t' = max_depth t
  /\ max_size t' = max_size t
  /\ max_byte_size t' = max_byte_size t
  /\ memory_estimate_period t' = memory_estimate_period t
  /\ stop_mem_management t' = stop_mem_management t
  /\ n_decision_nodes t' = n_decision_nodes t
  /\ active_leaf_size_estimate t' = active_leaf_size_estimate t
  /\ inactive_leaf_size_estimate t' = inactive_leaf_size_estimate t
  /\ size_estimate_overhead_fraction t' = size_estimate_overhead_fraction t
  /\ (growth_allowed t = false -> growth_allowed t' = false)
  /\ map slot (find_learning_nodes t') = map slot (find_learning_nodes t).
Proof.
  intros t'.
  assert (Hslots : map slot (find_learning_nodes t')
                   = map slot (find_learning_nodes t)).
  { unfold t'. destruct (enforce_size_limit_find t) as [-> | ->];
      [reflexivity|].
    rewrite find_enforce_activation, !map_map. apply map_ext. intros g.
    now rewrite !slot_retag. }
  unfold t' in *.
  destruct (enforce_size_limit_shape t) as [E | [r [a [b E]]]];
    rewrite E in *; repeat split; trivial.
Qed.

(** X11: when the factory returns leaves of the mode asked for,
    [_enforce_size_limit] keeps the two leaf counters equal to the numbers
    of active and inactive leaves of the tree. *)
Theorem enforce_size_limit_counters_agree (t : Tree_t) :
  FactoryRespectsMode collab ->
  counters_agree t ->
  counters_agree (enforce_size_limit t).
Proof.
  intros Hmode Hagree.
  assert (Hact : counters_agree (enforce_activation t)).
  { apply (@enforce_activation_loops _ _ _ counters_agree t).
    - intros t' f. now apply deactivate_if_active_counters.
    - intros t' f. now apply activate_if_inactive_counters.
    - exact Hagree. }
  unfold enforce_size_limit.
  destruct (_ || _); [destruct (stop_mem_management t)|];
    assumption.
Qed.

(** *** The order in which leaves are given up *)

Lemma insert_by_promise_ascending (f : Found_t) (s : list Found_t) :
  ascending s -> ascending (insert_by_promise f s).
Proof.
  induction s as [| g rest IH]; intros Hs; simpl.
  - split; [intros g [] | exact I].
  - destruct Hs as [Hg Hrest].
    destruct (calculate_promise (node f) <=? calculate_promise (node g))%Z
      eqn:E.
    + apply Z.leb_le in E. split; [|now split].
      intros x [<- | Hx]; [exact E|].
      specialize (Hg x Hx). unfold promise_le in *. lia.
    + apply Z.leb_gt in E. split; [|now apply IH].
      intros x Hx.
      apply (Permutation_in _ (insert_by_promise_perm f rest)) in Hx.
      destruct Hx as [<- | Hx]; [unfold promise_le; lia | now apply Hg].
Qed.

Lemma sort_by_promise_ascending (l : list Found_t) :
  ascending (sort_by_promise l).
Proof.
  induction l as [| f l IH]; simpl; [exact I|].
  now apply insert_by_promise_ascending.
Qed.

Lemma with_promise_insert (v : Z) (f : Found_t) (s : list Found_t) :
  with_promise v (insert_by_promise f s) = with_promise v (f :: s).
Proof.
  induction s as [| g rest IH]; [reflexivity|].
  simpl insert_by_promise.
  destruct (calculate_promise (node f) <=? calculate_promise (node g))%Z
    eqn:E; [reflexivity|].
  apply Z.leb_gt in E. unfold with_promise in *. simpl in *. rewrite IH.
  destruct (calculate_promise (node g) =? v)%Z eqn:Eg;
    destruct (calculate_promise (node f) =? v)%Z eqn:Ef; try reflexivity.
  apply Z.eqb_eq in Eg, Ef. lia.
Qed.

(** X12: the sort of [_enforce_size_limit] rearranges the found nodes in
    ascending order of promise and is stable: found nodes of equal promise
    stay in the order in which the traversal found them. *)
Theorem sort_by_promise_stable (l : list Found_t) :
  Permutation (sort_by_promise l) l
  /\ ascending (sort_by_promise l)
  /\ forall v, with_promise v (sort_by_promise l) = with_promise v l.
Proof.
  split; [apply sort_by_promise_perm|].
  split; [apply sort_by_promise_ascending|].
  intros v. induction l as [| f l IH]; [reflexivity|].
  simpl sort_by_promise. rewrite with_promise_insert.
  unfold with_promise in *. simpl. now rewrite IH.
Qed.

Lemma ascending_app (l1 l2 : list Found_t) :
  ascending (l1 ++ l2) ->
  forall g1 g2, In g1 l1 -> In g2 l2 -> promise_le g1 g2.
Proof.
  induction l1 as [| f l1 IH]; intros Hs g1 g2 H1 H2; [destruct H1|].
  destruct Hs as [Hf Hrest]. destruct H1 as [<- | H1].
  - apply Hf. apply in_or_app. now right.
  - now apply IH.
Qed.

Lemma in_find_enforce_activation (t : Tree_t) (g : Found_t) :
  In g (find_learning_nodes t) ->
  let sl := sort_by_promise (find_learning_nodes t) in
  let cutoff := (length sl - max_active_scan t (length sl))%nat in
  In (retag (after_activation t) (skipn cutoff sl)
        (retag after_deactivation (firstn cutoff sl) g))
     (find_learning_nodes (enforce_activation t)).
Proof.
  intros Hin sl cutoff. rewrite find_enforce_activation.
  now apply in_map, in_map.
Qed.

Lemma in_cut_sorted (t : Tree_t) (cutoff : nat) (g : Found_t) :
  In g (firstn cutoff (sort_by_promise (find_learning_nodes t)))
  \/ In g (skipn cutoff (sort_by_promise (find_learning_nodes t)))
  <-> In g (find_learning_nodes t).
Proof.
  rewrite <- in_app_iff, firstn_skipn. split; apply Permutation_in.
  - apply sort_by_promise_perm.
  - apply Permutation_sym, sort_by_promise_perm.
Qed.

(** X13: with memory management on, the learning nodes are cut in two at
    [cutoff = len - max_active] in the order of the sort.  No leaf below
    the cutoff has a larger promise than a leaf at or above it; after the
    call every leaf below the cutoff is inactive, and every leaf at or
    above it is active, unless it was inactive at a depth that is not
    below [max_depth], in which case it is the same node as before. *)
Theorem enforce_size_limit_policy (t : Tree_t) :
  FactoryRespectsMode collab ->
  stop_mem_management t = false ->
  let sl := sort_by_promise (find_learning_nodes t) in
  let cutoff := (length sl - max_active_scan t (length sl))%nat in
  (forall g1 g2, In g1 (firstn cutoff sl) -> In g2 (skipn cutoff sl) ->
                 promise_le g1 g2)
  /\ (forall g, In g (firstn cutoff sl) ->
        exists l', In (mkFoundNode l' (parent g) (parent_branch g))
                      (find_learning_nodes (enforce_size_limit t))
                   /\ mode l' = InactiveLeaf)
  /\ (forall g, In g (skipn cutoff sl) ->
        exists l', In (mkFoundNode l' (parent g) (parent_branch g))
                      (find_learning_nodes (enforce_size_limit t))
                   /\ (mode l' = ActiveLeaf
                       \/ (l' = node g /\ mode (node g) = InactiveLeaf
                           /\ below_max_depth t (depth (node g)) = false))).
Proof.
  intros Hmode Hstop sl cutoff.
  rewrite (enforce_size_limit_managed t Hstop).
  split; [| split].
  - apply ascending_app. unfold sl. rewrite firstn_skipn.
    apply sort_by_promise_ascending.
  - intros g Hg.
    assert (Hin : In g (find_learning_nodes t))
      by (apply (in_cut_sorted t cutoff); now left).
    pose proof (in_find_enforce_activation t g Hin) as Hfound.
    cbv zeta in Hfound. fold sl in Hfound. fold cutoff in Hfound.
    unfold sl in Hfound, Hg.
    rewrite (outcome_below_cutoff t cutoff g Hg) in Hfound.
    exists (after_deactivation (node g)). split; [exact Hfound|].
    pose proof (after_deactivation_inactive Hmode (node g)) as Hm.
    destruct (mode (after_deactivation (node g)));
      [discriminate | reflexivity].
  - intros g Hg.
    assert (Hin : In g (find_learning_nodes t))
      by (apply (in_cut_sorted t cutoff); now right).
    pose proof (in_find_enforce_activation t g Hin) as Hfound.
    cbv zeta in Hfound. fold sl in Hfound. fold cutoff in Hfound.
    unfold sl in Hfound, Hg.
    rewrite (outcome_above_cutoff t cutoff g Hg) in Hfound.
    exists (after_activation t (node g)). split; [exact Hfound|].
    unfold after_activation.
    destruct (mode (node g)) eqn:Em; simpl.
    + now left.
    + destruct (below_max_depth t (depth (node g))) eqn:Eb.
      * left. now rewrite (mode_replacement Hmode).
      * right. now repeat split.
Qed.

(** *** The two ends of the scan *)

Lemma max_active_scan_all (t : Tree_t) (len : nat) :
  (forall k, (0 < k <= len)%nat ->
             projected_size t len k <= inject_Z (max_byte_size t)) ->
  max_active_scan t len = len.
Proof.
  intros Hfit. pose proof (max_active_scan_le t len) as Hle.
  destruct (@max_active_loop_spec _ _ t len len O) as [_ Hnext];
    [lia | lia |].
  fold (max_active_scan t len) in Hnext.
  destruct (Nat.eq_dec (max_active_scan t len) len) as [E | NE];
    [exact E | exfalso].
  assert (Hlt : (max_active_scan t len < len)%nat) by lia.
  apply Hnext, Qgtb_true in Hlt.
  apply (Qlt_not_le _ _ Hlt). apply Hfit. lia.
Qed.

Lemma max_active_scan_none (t : Tree_t) (len : nat) :
  inject_Z (max_byte_size t) < projected_size t len 1 ->
  max_active_scan t len = O.
Proof.
  intros Hover. unfold max_active_scan.
  destruct len as [| len]; [reflexivity|]. simpl.
  replace (Qgtb (projected_size t (S len) 1) (inject_Z (max_byte_size t)))
    with true; [reflexivity|].
  symmetry. unfold Qgtb.
  destruct (Qle_bool _ _) eqn:Q; [|reflexivity].
  apply Qle_bool_iff in Q. exfalso. exact (Qlt_not_le _ _ Hover Q).
Qed.

(** X14: with memory management on, when every number of active leaves
    up to the number of learning nodes fits the byte budget, the scan ends
    with [max_active = len] and the call deactivates nothing: every active
    leaf is found again, the same node at the same reference. *)
Theorem enforce_size_limit_within_budget (t : Tree_t) :
  stop_mem_management t = false ->
  let len := length (find_learning_nodes t) in
  (forall k, (0 < k <= len)%nat ->
             projected_size t len k <= inject_Z (max_byte_size t)) ->
  max_active_scan t len = len
  /\ forall f, In f (find_learning_nodes t) ->
               mode (node f) = ActiveLeaf ->
               In f (find_learning_nodes (enforce_size_limit t)).
Proof.
  intros Hstop len Hfit.
  pose proof (@max_active_scan_all t len Hfit) as Hall.
  split; [exact Hall|].
  intros f Hin Hactive.
  rewrite (enforce_size_limit_managed t Hstop).
  pose proof (in_find_enforce_activation t f Hin) as Hfound.
  cbv zeta in Hfound. rewrite sort_by_promise_length in Hfound.
  fold len in Hfound. rewrite Hall, Nat.sub_diag in Hfound.
  simpl firstn in Hfound. rewrite retag_nil in Hfound.
  assert (E : after_activation t (node f) = node f).
  { unfold after_activation. now rewrite Hactive. }
  unfold retag in Hfound.
  destruct (existsb _ _); [rewrite E, found_eta in Hfound|]; exact Hfound.
Qed.

(** X15: with memory management on, when even a single active leaf
    exceeds the byte budget, no leaf is active after the call, and
    [n_active_leaves] is 0 if the counters agreed with the tree. *)
Theorem enforce_size_limit_over_budget (t : Tree_t) :
  FactoryRespectsMode collab ->
  stop_mem_management t = false ->
  inject_Z (max_byte_size t)
  < projected_size t (length (find_learning_nodes t)) 1 ->
  active_leaves (enforce_size_limit t) = O
  /\ (counters_agree t -> n_active_leaves (enforce_size_limit t) = 0%Z).
Proof.
  intros Hmode Hstop Hover.
  rewrite (enforce_size_limit_managed t Hstop).
  assert (Hnone : active_leaves (enforce_activation t) = O).
  { unfold active_leaves. rewrite find_enforce_activation, map_map.
    apply count_mode_none. intros g' Hg'.
    apply in_map_iff in Hg'. destruct Hg' as [g [<- Hg]].
    rewrite sort_by_promise_length.
    rewrite (@max_active_scan_none t _ Hover), Nat.sub_0_r.
    assert (Hfirst : In g (firstn (length (find_learning_nodes t))
                             (sort_by_promise (find_learning_nodes t)))).
    { rewrite <- (sort_by_promise_length (find_learning_nodes t)).
      rewrite firstn_all.
      apply (Permutation_in _ (Permutation_sym (sort_by_promise_perm _)) Hg). }
    rewrite (outcome_below_cutoff t _ g Hfirst). simpl.
    now apply after_deactivation_inactive. }
  split; [exact Hnone|].
  intros Hagree.
  destruct (@enforce_activation_loops _ _ _ counters_agree t) as [_ [Ha _]].
  - intros t' f. now apply deactivate_if_active_counters.
  - intros t' f. now apply activate_if_inactive_counters.
  - exact Hagree.
  - rewrite Ha, Hnone. reflexivity.
Qed.

(** *** [_estimate_model_size] *)

Lemma measure_leaves_from (l : list Found_t) :
  forall a i,
    fold_left
      (fun totals found_node =>
         if negb (is_leaf (node found_node)) then totals
         else if isinstance_ActiveLeaf
                   (ObjNode (@Leaf Stats SplitTest (node found_node)))
         then (fst totals + calculate_object_size (node found_node),
               snd totals)%Z
         else (fst totals,
               snd totals + calculate_object_size (node found_node))%Z)
      l (a, i)
    = ((a + total_object_size ActiveLeaf l)%Z,
       (i + total_object_size InactiveLeaf l)%Z).
Proof.
  match goal with
  | |- forall a i, fold_left ?F _ _ = _ => remember F as body eqn:Hb
  end.
  induction l as [| f l IH]; intros a i;
    cbn [fold_left total_object_size].
  - f_equal; lia.
  - assert (Hstep : body (a, i) f
                    = if LeafMode_eqb (mode (node f)) ActiveLeaf
                      then ((a + calculate_object_size (node f))%Z, i)
                      else (a, (i + calculate_object_size (node f))%Z))
      by (subst body; reflexivity).
    rewrite Hstep.
    destruct (mode (node f)); cbn [LeafMode_eqb]; rewrite IH; f_equal; lia.
Qed.

(** The two totals of the measuring loop. *)
Lemma measure_leaves_totals (l : list Found_t) :
  measure_leaves l
  = (total_object_size ActiveLeaf l, total_object_size InactiveLeaf l).
Proof. unfold measure_leaves. now rewrite measure_leaves_from. Qed.

Lemma total_object_size_none (m : LeafMode) (l : list Found_t) :
  count_mode m l = O -> total_object_size m l = 0%Z.
Proof.
  induction l as [| f l IH]; [reflexivity|].
  rewrite count_mode_cons. simpl.
  destruct (LeafMode_eqb (mode (node f)) m); simpl; [discriminate | exact IH].
Qed.

Section PositiveSizes.

Hypothesis sizes_positive : forall l : Leaf_t, (0 < calculate_object_size l)%Z.

Lemma total_object_size_nonneg (m : LeafMode) (l : list Found_t) :
  (0 <= total_object_size m l)%Z.
Proof.
  induction l as [| f l IH]; simpl; [lia|].
  destruct (LeafMode_eqb (mode (node f)) m); [|exact IH].
  pose proof (sizes_positive (node f)). lia.
Qed.

Lemma total_object_size_pos (m : LeafMode) (l : list Found_t) :
  (0 < count_mode m l)%nat -> (0 < total_object_size m l)%Z.
Proof.
  induction l as [| f l IH]; [unfold count_mode; simpl; lia|].
  rewrite count_mode_cons. simpl.
  destruct (LeafMode_eqb (mode (node f)) m); simpl.
  - intros _. pose proof (sizes_positive (node f)).
    pose proof (total_object_size_nonneg m l). lia.
  - exact IH.
Qed.

End PositiveSizes.

(** What the first half of [_estimate_model_size] may change. *)
Lemma update_leaf_size_estimates_shape (t t1 : Tree_t) :
  update_leaf_size_estimates t = Ok t1 ->
  exists a i,
    t1 = set_inactive_leaf_size_estimate i
           (set_active_leaf_size_estimate a t)
    /\ (total_object_size ActiveLeaf (find_learning_nodes t) = 0%Z ->
        a = active_leaf_size_estimate t)
    /\ (total_object_size InactiveLeaf (find_learning_nodes t) = 0%Z ->
        i = inactive_leaf_size_estimate t).
Proof.
  unfold update_leaf_size_estimates. rewrite measure_leaves_totals.
  cbn [fst snd].
  set (Sa := total_object_size ActiveLeaf (find_learning_nodes t)).
  set (Si := total_object_size InactiveLeaf (find_learning_nodes t)).
  destruct (0 <? Sa)%Z eqn:Ea.
  - destruct (py_qdiv (inject_Z Sa) (inject_Z (n_active_leaves t)))
      as [qa |]; simpl bind; [|discriminate].
    cbn [n_inactive_leaves set_active_leaf_size_estimate].
    apply Z.ltb_lt in Ea.
    destruct (0 <? Si)%Z eqn:Ei.
    + destruct (py_qdiv (inject_Z Si) (inject_Z (n_inactive_leaves t)))
        as [qi |]; simpl bind; [|discriminate].
      intros E. inversion E. exists qa, qi. apply Z.ltb_lt in Ei.
      split; [reflexivity|]. split; intros; lia.
    + intros E. inversion E.
      exists qa, (inactive_leaf_size_estimate t).
      split; [reflexivity|]. split; [intros; lia | reflexivity].
  - simpl bind. destruct (0 <? Si)%Z eqn:Ei.
    + destruct (py_qdiv (inject_Z Si) (inject_Z (n_inactive_leaves t)))
        as [qi |]; simpl bind; [|discriminate].
      intros E. inversion E. exists (active_leaf_size_estimate t), qi.
      apply Z.ltb_lt in Ei.
      split; [now destruct t|]. split; [reflexivity | intros; lia].
    + intros E. inversion E. subst t1.
      exists (active_leaf_size_estimate t), (inactive_leaf_size_estimate t).
      split; [now destruct t|]. now split.
Qed.

(** What the second half of [_estimate_model_size] returns. *)
Lemma update_overhead_fraction_ok (t1 t' : Tree_t) :
  update_overhead_fraction t1 = Ok t' ->
  ~ estimated_model_size t1 == 0
  /\ let q := inject_Z (calculate_tree_size t1) / estimated_model_size t1 in
     (t' = set_size_estimate_overhead_fraction q t1
      \/ ((max_byte_size t1 < calculate_tree_size t1)%Z
          /\ t' = enforce_size_limit
                    (set_size_estimate_overhead_fraction q t1))).
Proof.
  unfold update_overhead_fraction, py_qdiv.
  destruct (Qeq_bool (estimated_model_size t1) 0) eqn:E; simpl bind;
    [discriminate|].
  intros H. split.
  - intros Hz. apply Qeq_bool_iff in Hz. congruence.
  - cbn [max_byte_size set_size_estimate_overhead_fraction] in H.
    destruct (max_byte_size t1 <? calculate_tree_size t1)%Z eqn:Hb;
      inversion H; [right | left]; [|reflexivity].
    apply Z.ltb_lt in Hb. now split.
Qed.

(** X18: when the tree holds an active leaf, object sizes are positive
    and the counter [n_active_leaves] is 0, [_estimate_model_size] fails
    with a division by zero on the average of the active sizes. *)
Theorem estimate_model_size_zero_counter (t : Tree_t) (f : Found_t) :
  (forall l : Leaf_t, (0 < calculate_object_size l)%Z) ->
  In f (find_learning_nodes t) ->
  mode (node f) = ActiveLeaf ->
  n_active_leaves t = 0%Z ->
  estimate_model_size t = Raise ZeroDivisionError.
Proof.
  intros Hpos Hin Hmode Hzero.
  unfold estimate_model_size, update_leaf_size_estimates.
  rewrite measure_leaves_totals. cbn [fst].
  assert (Hcount : (0 < count_mode ActiveLeaf (find_learning_nodes t))%nat).
  { apply in_split in Hin. destruct Hin as [l1 [l2 ->]].
    rewrite count_mode_app, count_mode_cons, Hmode. simpl. lia. }
  pose proof (total_object_size_pos Hpos ActiveLeaf _ Hcount) as HS.
  apply Z.ltb_lt in HS. rewrite HS, Hzero.
  rewrite py_qdiv_raises by reflexivity. reflexivity.
Qed.

(** X19: a class without leaves keeps its estimate: when the tree has no
    active leaf, a call of [_estimate_model_size] that ends normally
    leaves [active_leaf_size_estimate] as it was, and likewise for the
    inactive leaves. *)
Theorem estimate_model_size_keeps_stale (t t' : Tree_t) :
  estimate_model_size t = Ok t' ->
  (active_leaves t = O ->
   active_leaf_size_estimate t' = active_leaf_size_estimate t)
  /\ (inactive_leaves t = O ->
      inactive_leaf_size_estimate t' = inactive_leaf_size_estimate t).
Proof.
  intros H.
  assert (Hframe : exists t1,
             update_leaf_size_estimates t = Ok t1
             /\ active_leaf_size_estimate t' = active_leaf_size_estimate t1
             /\ inactive_leaf_size_estimate t'
                = inactive_leaf_size_estimate t1).
  { unfold estimate_model_size in H.
    destruct (update_leaf_size_estimates t) as [t1 |]; simpl bind in H;
      [|discriminate].
    exists t1. split; [reflexivity|].
    destruct (update_overhead_fraction_ok _ H) as [_ Hcases].
    cbv zeta in Hcases.
    set (q := inject_Z (calculate_tree_size t1) / estimated_model_size t1)
      in *.
    destruct Hcases as [-> | [_ ->]]; [now split|].
    destruct (enforce_size_limit_shape
                (set_size_estimate_overhead_fraction q t1))
      as [E | [r [a [b E]]]]; rewrite E; now split. }
  destruct Hframe as [t1 [E1 [Ea Ei]]].
  destruct (update_leaf_size_estimates_shape _ E1) as [a [i [-> [Ha Hi]]]].
  simpl in Ea, Ei. rewrite Ea, Ei. split; intros Hnone.
  - apply Ha. now apply total_object_size_none.
  - apply Hi. now apply total_object_size_none.
Qed.

(** X20: [_estimate_model_size] touches the tree only when the measured
    size of the model exceeds the byte budget: otherwise the root, the
    leaf counters and [_growth_allowed] are as before the call. *)
Theorem estimate_model_size_within_budget (t t1 t' : Tree_t) :
  update_leaf_size_estimates t = Ok t1 ->
  (calculate_tree_size t1 <= max_byte_size t)%Z ->
  estimate_model_size t = Ok t' ->
  tree_root t' = tree_root t
  /\ n_active_leaves t' = n_active_leaves t
  /\ n_inactive_leaves t' = n_inactive_leaves t
  /\ growth_allowed t' = growth_allowed t.
Proof.
  intros E1 Hfit H. unfold estimate_model_size in H. rewrite E1 in H.
  simpl bind in H.
  destruct (update_leaf_size_estimates_shape _ E1) as [a [i [Et1 _]]].
  destruct (update_overhead_fraction_ok _ H) as [_ Hcases].
  cbv zeta in Hcases.
  destruct Hcases as [-> | [Hover _]].
  - rewrite Et1. now repeat split.
  - exfalso. rewrite Et1 in Hover at 1. simpl in Hover. lia.
Qed.

(** *** The byte budget *)

(** X21: the byte budget is [2 ** 20] times [max_size] after [__init__]
    and after the [max_size] setter, which the getter reads back, and
    [_enforce_size_limit] and [_estimate_model_size] keep it so. *)
Theorem budget_consistent_kept (t : Tree_t) (size : Z) :
  budget_consistent (set_max_size size t)
  /\ get_max_size (set_max_size size t) = size
  /\ (budget_consistent t -> budget_consistent (enforce_size_limit t))
  /\ (budget_consistent t ->
      forall t', estimate_model_size t = Ok t' -> budget_consistent t')
  /\ forall md bs ms mp stop rp mpp,
      budget_consistent
        (@init Stats SplitTest md bs ms mp stop rp mpp).
Proof.
  split; [reflexivity|]. split; [reflexivity|].
  assert (Henforce : forall u : Tree_t,
             budget_consistent u -> budget_consistent (enforce_size_limit u)).
  { intros u Hu. unfold budget_consistent in *.
    destruct (enforce_size_limit_shape u) as [E | [r [a [b E]]]];
      rewrite E; exact Hu. }
  split; [apply Henforce|]. split; [| reflexivity].
  intros Hb t' H. unfold estimate_model_size in H.
  destruct (update_leaf_size_estimates t) as [t1 |] eqn:E1; simpl bind in H;
    [|discriminate].
  destruct (update_leaf_size_estimates_shape _ E1) as [a [i [Et1 _]]].
  destruct (update_overhead_fraction_ok _ H) as [_ Hcases].
  cbv zeta in Hcases.
  assert (Hb1 : forall q, budget_consistent
                            (set_size_estimate_overhead_fraction q t1))
    by (intros q; rewrite Et1; exact Hb).
  destruct Hcases as [-> | [_ ->]]; [apply Hb1 | apply Henforce, Hb1].
Qed.

End EngineMore.

(** ** Instances on the concrete variant *)

Lemma find_learning_nodes_sound_witness :
  let f := mkFoundNode (mkLearningNode 7%Z 1%Z InactiveLeaf) (Some []) 1%Z in
  exists root,
    tree_root deep_inactive = Some root
    /\ subtree_at root (slot f) = Some (Leaf (node f)).
Proof.
  intros f.
  destruct (@find_learning_nodes_sound Z unit deep_inactive f)
    as [root [Er [Hsub _]]].
  - right. left. reflexivity.
  - exists root. now split.
Defined.

Lemma apply_transition_replaces_one_witness :
  let f := mkFoundNode (mkLearningNode 7%Z 1%Z InactiveLeaf) (Some []) 1%Z in
  map slot (find_learning_nodes (apply_transition deep_inactive (Activate f)))
  = map slot (find_learning_nodes deep_inactive).
Proof.
  intros f.
  apply (@apply_transition_replaces_one Z unit demo_collaborators
           deep_inactive (Activate f)).
  right. left. reflexivity.
Defined.

Lemma deactivate_then_activate_witness :
  let f := mkFoundNode (mkLearningNode 5%Z 0%Z ActiveLeaf) None (-1)%Z in
  let t1 := deactivate_leaf (node f) (parent f) (parent_branch f) single_leaf in
  let f1 := mkFoundNode (replacement false (node f)) (parent f) (parent_branch f) in
  let t2 := activate_leaf (node f1) (parent f1) (parent_branch f1) t1 in
  n_active_leaves t2 = n_active_leaves single_leaf
  /\ n_inactive_leaves t2 = n_inactive_leaves single_leaf.
Proof.
  intros f t1 f1 t2.
  destruct (@deactivate_then_activate Z unit demo_collaborators single_leaf f
              demo_factory_mode) as [_ [_ [_ [_ [Ha [Hi _]]]]]].
  - left. reflexivity.
  - now split.
Defined.

Lemma demo_factory_below : FactoryPlacesBelow demo_collaborators.
Proof. intros s l is_active. reflexivity. Qed.

Lemma enforce_size_limit_keeps_depths_witness :
  map (fun g => (slot g, depth (node g)))
    (find_learning_nodes (enforce_size_limit two_active))
  = map (fun g => (slot g, depth (node g))) (find_learning_nodes two_active).
Proof.
  exact (@enforce_size_limit_keeps_depths Z unit demo_collaborators
           two_active demo_factory_below).
Defined.

Lemma enforce_size_limit_counters_agree_witness :
  counters_agree two_active
  /\ counters_agree (enforce_size_limit two_active).
Proof.
  assert (H : counters_agree two_active) by (split; reflexivity).
  split; [exact H|].
  exact (@enforce_size_limit_counters_agree Z unit demo_collaborators
           two_active demo_factory_mode H).
Defined.

Lemma enforce_size_limit_policy_witness :
  FactoryRespectsMode demo_collaborators
  /\ stop_mem_management two_active = false
  /\ forall g1 g2,
      In g1 (firstn 1 (sort_by_promise (find_learning_nodes two_active))) ->
      In g2 (skipn 1 (sort_by_promise (find_learning_nodes two_active))) ->
      promise_le g1 g2.
Proof.
  split; [exact demo_factory_mode|]. split; [reflexivity|].
  exact (proj1 (@enforce_size_limit_policy Z unit demo_collaborators
                  two_active demo_factory_mode eq_refl)).
Defined.

Lemma enforce_size_limit_within_budget_witness :
  stop_mem_management deep_inactive = false
  /\ max_active_scan deep_inactive 2 = 2%nat.
Proof.
  split; [reflexivity|].
  apply (@enforce_size_limit_within_budget Z unit demo_collaborators
           deep_inactive eq_refl).
  intros k Hk. simpl in Hk.
  assert (E : k = 1%nat \/ k = 2%nat) by lia.
  destruct E as [-> | ->]; vm_compute; discriminate.
Defined.

Lemma enforce_size_limit_over_budget_witness :
  FactoryRespectsMode demo_collaborators
  /\ stop_mem_management (set_max_size 0 two_active) = false
  /\ active_leaves (enforce_size_limit (set_max_size 0 two_active)) = O.
Proof.
  split; [exact demo_factory_mode|]. split; [reflexivity|].
  apply (@enforce_size_limit_over_budget Z unit demo_collaborators
           (set_max_size 0 two_active) demo_factory_mode eq_refl).
  vm_compute. reflexivity.
Defined.

Lemma demo_sizes_positive :
  forall l : LearningNode Z, (0 < demo_object_size l)%Z.
Proof. intros l. unfold demo_object_size. destruct (mode l); lia. Qed.

Lemma estimate_model_size_zero_counter_witness :
  estimate_model_size
    (set_leaf_counts 0 0 single_leaf) = Raise ZeroDivisionError.
Proof.
  apply (@estimate_model_size_zero_counter Z unit demo_collaborators
           (set_leaf_counts 0 0 single_leaf)
           (mkFoundNode (mkLearningNode 5%Z 0%Z ActiveLeaf) None (-1)%Z)).
  - exact demo_sizes_positive.
  - left. reflexivity.
  - reflexivity.
  - reflexivity.
Defined.

Lemma estimate_model_size_keeps_stale_witness :
  exists t',
    estimate_model_size two_active = Ok t'
    /\ inactive_leaf_size_estimate t' = inactive_leaf_size_estimate two_active.
Proof.
  eexists. split; [reflexivity|].
  apply (@estimate_model_size_keeps_stale Z unit demo_collaborators
           two_active _ eq_refl).
  reflexivity.
Defined.

Lemma estimate_model_size_within_budget_witness :
  let t := set_max_size 100 two_active in
  exists t1 t',
    update_leaf_size_estimates t = Ok t1
    /\ estimate_model_size t = Ok t'
    /\ tree_root t' = tree_root t.
Proof.
  intros t. eexists. eexists. split; [reflexivity|]. split; [reflexivity|].
  apply (@estimate_model_size_within_budget Z unit demo_collaborators
           t _ _ eq_refl); [|reflexivity].
  vm_compute. discriminate.
Defined.
